(** * MurLock: a Redis-backed distributed lock for NestJS

    Shallow embedding of the lock coordination engine of murlock:
    - [Redis]: the key space of the Redis server, with PX expiry, and the
      two server-side Lua scripts [lib/lua/lock.lua] and [lib/lua/unlock.lua];
    - [MurLockService]: [MurLockService.lock / unlock / acquireLock /
      releaseLock / runWithLock] (the version taking a per-call [wait]
      override), as a state and error monad over a world whose Redis replies
      are given by an oracle (the other clients of the server are unknown);
    - [Interleaving]: N concurrent [runWithLock] call chains of one
      process, interleaved at their suspension points, against one shared
      Redis key space. *)

From Stdlib Require Import ZArith Lia Permutation Ascii.
From stdpp Require Import base gmap list strings pretty.

(* ------------------------------------------------------------------ *)
(** ** The Redis key space and the Lua scripts *)

Module Redis.
Local Open Scope Z_scope.

(** A string value stored with [PX]: the absolute time (ms) at which
    Redis expires it. *)
Record entry := mkEntry { value : string; expires_at : Z }.

Abbreviation store := (gmap string entry).

(** Redis treats a key as expired only once the clock is past its
    expiry time ([now > when] in [keyIsExpired]): a record written with
    [PX ms] at time [t] is still there at [t + ms]. *)
Definition live (now : Z) (e : entry) : bool := bool_decide (now <= expires_at e).

(** [GET key]: nil (Lua [false]) when the key is absent or expired. *)
Definition get (st : store) (now : Z) (k : string) : option string :=
  match st !! k with
  | Some e => if live now e then Some (value e) else None
  | None => None
  end.

(** Result of [redis.call] inside a script: an error aborts the script
    and makes [EVAL] reply with that error. *)
Inductive lua_result (A : Type) :=
| LuaOk (a : A)
| LuaError (msg : string).
Arguments LuaOk {A} _.
Arguments LuaError {A} _.

(** [SET key v NX PX ms]: the expire time is checked first (a
    non-positive one is an error); with [NX] the value is only written
    when the key holds nothing; the reply is OK (true) or nil (false). *)
Definition set_nx_px (st : store) (now : Z) (k v : string) (ms : Z)
  : lua_result (bool * store) :=
  if bool_decide (ms <= 0) then LuaError "ERR invalid expire time in 'set' command"
  else match get st now k with
       | Some _ => LuaOk (false, st)
       | None => LuaOk (true, <[k := mkEntry v (now + ms)]> st)
       end.

(** [DEL key]: the number of keys removed. *)
Definition del (st : store) (now : Z) (k : string) : Z * store :=
  match get st now k with
  | Some _ => (1%Z, delete k st)
  | None => (0%Z, delete k st)
  end.

(** lib/lua/lock.lua
<<
  if redis.call("get",key) == clientId or redis.call("set", key, clientId, "NX", "PX", releaseTime) then
    return 1
  else
    return 0
  end
>>
    Lua's [or] evaluates the [set] only when the [get] comparison is
    false. *)
Definition lock_script (st : store) (now : Z) (key clientId : string)
    (releaseTime : Z) : lua_result (Z * store) :=
  if bool_decide (get st now key = Some clientId) then LuaOk (1%Z, st)
  else match set_nx_px st now key clientId releaseTime with
       | LuaError m => LuaError m
       | LuaOk (true, st') => LuaOk (1%Z, st')
       | LuaOk (false, st') => LuaOk (0%Z, st')
       end.

(** unlock.lua
<<
  if redis.call("get", key) == clientId then
    return redis.call("del", key)
  else
    return 0
  end
>> *)
Definition unlock_script (st : store) (now : Z) (key clientId : string)
  : Z * store :=
  if bool_decide (get st now key = Some clientId) then del st now key
  else (0%Z, st).

End Redis.

(* ------------------------------------------------------------------ *)
(** ** Exceptions, commands and Redis replies *)

(** The exceptions that reach the callers of the service. A
    [MurLockException] carries the message it is built with; a wrapping
    message (["... : ${error.message}"]) keeps the wrapped exception. *)
Inductive exn :=
  | RedisError (msg : string)
      (** rejection of [redisClient.sendCommand]: connection failure or
          an error reply of the script *)
  | BodyError (code : nat)
      (** an exception thrown by the protected operation *)
  | AsyncStorageManagerException
      (** ['No active store found'] *)
  | MurLockException (m : lock_message)
with lock_message :=
  | ObtainFailedAfter (key : string) (maxAttempts : nat)
      (** [Failed to obtain lock for key ${lockKey} after ${maxAttempts} attempts.] *)
  | UnexpectedError (key : string) (cause : exn)
      (** [Unexpected error when trying to obtain lock for key ${lockKey}: ${error.message}] *)
  | AcquireFailed (key : string) (cause : exn)
      (** [Failed to acquire lock for key ${lockKey}: ${error.message}] *)
  | CouldNotObtain (key : string)
      (** [Could not obtain lock for key ${lockKey}] *)
  | ReleaseRefused (key : string)
      (** [Failed to release lock for key ${lockKey}] (thrown by [unlock]) *)
  | ReleaseFailed (key : string) (cause : exn)
      (** [Failed to release lock for key ${lockKey}: ${error.message}] *).

(** The two [EVAL] commands the service sends. *)
Inductive command :=
  | EvalLock (key clientId : string) (releaseTime : Z)
      (** [['EVAL', lockScript, '1', lockKey, clientId, releaseTime.toString()]] *)
  | EvalUnlock (key clientId : string)
      (** [['EVAL', unlockScript, '1', lockKey, clientId]] *).

Definition command_clientId (c : command) : string :=
  match c with
  | EvalLock _ t _ => t
  | EvalUnlock _ t => t
  end.

(** What [sendCommand] settles with: the integer reply of the script, or a
    rejection. *)
Inductive reply :=
  | Int (z : Z)
  | Rejected (msg : string).

(** The Redis server answering an [EVAL] from its key space at time [now]
    (a script error becomes a rejection). *)
Definition eval_on (st : Redis.store) (now : Z) (c : command) : reply * Redis.store :=
  match c with
  | EvalLock k t ms =>
      match Redis.lock_script st now k t ms with
      | Redis.LuaOk (z, st') => (Int z, st')
      | Redis.LuaError m => (Rejected m, st)
      end
  | EvalUnlock k t => let '(z, st') := Redis.unlock_script st now k t in (Int z, st')
  end.

(** [generateUuid] (imported from [lib/utils]). *)
Definition uuid_string (n : nat) : string := "uuid-" +:+ pretty n.

(* ------------------------------------------------------------------ *)
(** ** MurLockService, one call chain *)

Module MurLockService.

(** [MurLockModuleOptions] as far as the lock engine reads it
    ([redisOptions] and [logLevel] only configure the client and the
    logger; [ignoreUnlockFail?: boolean] is falsy when absent).
    [maxAttempts] is a non-negative integer here: [acquireLock] counts it
    down by one and stops at [attemptsRemaining === 0], which a JS
    number such as [Infinity], [-1] or [2.5] never reaches; such values
    retry forever and are outside this model. *)
Record options := mkOptions {
  wait : Z;
  maxAttempts : nat;
  ignoreUnlockFail : bool }.

(** The per-call [wait?: number | ((retries: number) => number)]. *)
Inductive wait_arg :=
  | WaitUndefined
  | WaitNumber (ms : Z)
  | WaitFunction (f : Z -> Z).

(** The effects a call chain has on the world. *)
Inductive event :=
  | Sent (c : command)
  | Slept (ms : Z).

(** [redis n c]: how the server answers the [n]-th command sent, which
    depends on what the other clients did meanwhile. [context] is the
    AsyncLocalStorage store of the call chain; [uuids] counts the
    identifiers generated so far. *)
Record world := mkWorld {
  redis : nat -> command -> reply;
  sent : nat;
  trace : list event;
  context : option (gmap string string);
  uuids : nat }.

Definition M (A : Type) : Type := world -> (exn + A) * world.

Definition ret {A} (a : A) : M A := fun w => (inr a, w).
Definition bind {A B} (m : M A) (f : A -> M B) : M B := fun w =>
  match m w with
  | (inl e, w') => (inl e, w')
  | (inr a, w') => f a w'
  end.
#[global] Instance M_ret : MRet M := @ret.
#[global] Instance M_bind : MBind M := fun A B f m => bind m f.

Definition throw {A} (e : exn) : M A := fun w => (inl e, w).

(** [try { m } catch (error) { h(error) }] *)
Definition try_catch {A} (m : M A) (h : exn -> M A) : M A := fun w =>
  match m w with
  | (inl e, w') => h e w'
  | r => r
  end.

(** [try { return await m; } finally { await fin; }]: the finally block
    always runs; when it throws, its exception replaces the completion
    of the try block. *)
Definition try_finally {A} (m : M A) (fin : M unit) : M A := fun w =>
  let '(r, w1) := m w in
  match fin w1 with
  | (inl e, w2) => (inl e, w2)
  | (inr _, w2) => (r, w2)
  end.

Definition sendCommand (c : command) : M Z := fun w =>
  let w' := mkWorld (redis w) (S (sent w)) (trace w ++ [Sent c]) (context w) (uuids w) in
  match redis w (sent w) c with
  | Int z => (inr z, w')
  | Rejected m => (inl (RedisError m), w')
  end.

Definition sleep (ms : Z) : M unit := fun w =>
  (inr tt, mkWorld (redis w) (sent w) (trace w ++ [Slept ms]) (context w) (uuids w)).

(** [AsyncStorageService.registerContext]: [asyncLocalStorage.enterWith(new Map())]. *)
Definition registerContext : M unit := fun w =>
  (inr tt, mkWorld (redis w) (sent w) (trace w) (Some ∅) (uuids w)).

(** [AsyncStorageService.setClientID] / [AsyncStorageManager.set]. *)
Definition setClientID (key value : string) : M unit := fun w =>
  match context w with
  | None => (inl AsyncStorageManagerException, w)
  | Some m => (inr tt, mkWorld (redis w) (sent w) (trace w) (Some (<[key := value]> m)) (uuids w))
  end.

(** [AsyncStorageService.get] / [AsyncStorageManager.get]. *)
Definition als_get (key : string) : M (option string) := fun w =>
  match context w with
  | None => (inl AsyncStorageManagerException, w)
  | Some m => (inr (m !! key), w)
  end.

(** Modelled from the spec: [generateUuid] of [lib/utils], absent from
    the sources, is "a globally unique value minted per logical
    acquisition (e.g., a UUID)": the n-th call returns [uuid_string n]. *)
Definition generateUuid : M string := fun w =>
  (inr (uuid_string (uuids w)), mkWorld (redis w) (sent w) (trace w) (context w) (S (uuids w))).

(** The back-off of a failed attempt:
<<
  const delay = wait
    ? typeof wait === 'function'
      ? wait(this.options.maxAttempts - attemptsRemaining + 1)
      : wait
    : this.options.wait * (this.options.maxAttempts - attemptsRemaining + 1);
>>
    A function is truthy; a number is truthy unless it is 0. *)
Definition backoff_delay (opts : options) (callWait : wait_arg)
    (attemptsRemaining : nat) : Z :=
  let i := (Z.of_nat (maxAttempts opts) - Z.of_nat attemptsRemaining + 1)%Z in
  match callWait with
  | WaitFunction f => f i
  | WaitNumber ms => if bool_decide (ms = 0%Z) then (wait opts * i)%Z else ms
  | WaitUndefined => (wait opts * i)%Z
  end.

(** How the [try] block of an attempt completes: [return true], or
    [return attemptLock(attemptsRemaining - 1)]. The latter returns the
    promise of the next attempt without awaiting it, so the async
    function settles with that promise only after its [try] statement
    has completed: the [catch] of this attempt never sees a rejection of
    the next one. *)
Inductive attempt_completion :=
  | ReturnValue (b : bool)
  | ReturnNextAttempt.

Section Lock.
Variable opts : options.
Variables (lockKey : string) (releaseTime : Z) (clientId : string).
Variable callWait : wait_arg.

(** The [try] block of [attemptLock(attemptsRemaining)]. *)
Definition attempt_try (attemptsRemaining : nat) : M attempt_completion :=
  isLockSuccessful ← sendCommand (EvalLock lockKey clientId releaseTime);
  if bool_decide (isLockSuccessful = 1%Z) then ret (ReturnValue true)
  else
    sleep (backoff_delay opts callWait attemptsRemaining);;
    ret ReturnNextAttempt.

Fixpoint attemptLock (attemptsRemaining : nat) : M bool :=
  match attemptsRemaining with
  | O => throw (MurLockException (ObtainFailedAfter lockKey (maxAttempts opts)))
  | S n =>
      c ← try_catch (attempt_try (S n))
            (fun error => throw (MurLockException (UnexpectedError lockKey error)));
      match c with
      | ReturnValue b => ret b
      | ReturnNextAttempt => attemptLock n
      end
  end.

(** [lock(lockKey, releaseTime, clientId, wait)] *)
Definition lock : M bool := attemptLock (maxAttempts opts).

Definition acquireLock : M unit :=
  isLockSuccessful ← try_catch lock
    (fun error => throw (MurLockException (AcquireFailed lockKey error)));
  if (isLockSuccessful : bool) then ret tt
  else throw (MurLockException (CouldNotObtain lockKey)).
End Lock.

Section Unlock.
Variable opts : options.
Variables (lockKey clientId : string).

(** [unlock(lockKey, clientId)]; the warning logged when the failure
    is ignored is not modelled. *)
Definition unlock : M unit :=
  result ← sendCommand (EvalUnlock lockKey clientId);
  if bool_decide (result = 0%Z) then
    if ignoreUnlockFail opts then ret tt
    else throw (MurLockException (ReleaseRefused lockKey))
  else ret tt.

Definition releaseLock : M unit :=
  try_catch unlock (fun error => throw (MurLockException (ReleaseFailed lockKey error))).
End Unlock.

(** [runWithLock(lockKey, releaseTime, wait, fn)]; the three-argument
    overload is the case [callWait = WaitUndefined]. The [None] branch is
    unreachable: the value was stored just before (lemma
    [runWithLock_prelude]). *)
Definition runWithLock {R} (opts : options) (lockKey : string) (releaseTime : Z)
    (callWait : wait_arg) (operation : M R) : M R :=
  registerContext;;
  u ← generateUuid;
  setClientID "clientId" u;;
  clientId ← als_get "clientId";
  match clientId with
  | None => throw AsyncStorageManagerException
  | Some clientId =>
      acquireLock opts lockKey releaseTime clientId callWait;;
      try_finally operation (releaseLock opts lockKey clientId)
  end.

End MurLockService.

(* ------------------------------------------------------------------ *)
(** ** Concurrent call chains of [runWithLock] on one key *)

(** N call chains of [runWithLock(lockKey, releaseTime, fn)] in one
    process, scheduled at their suspension points (every [await]), against
    one shared Redis key space. Each [EVAL] is atomic on the server. The
    protected operation is the counter increment of the mutual exclusion
    property, suspended between its read and its write:
<<
    async () => { const v = counter; await ...; counter = v + 1; return counter; }
>>
    Time advances by [Tick] (1 ms); back-off sleeps are suspension points
    of arbitrary length. *)
Module Interleaving.
Import MurLockService.

Inductive pstate :=
  | Idle
      (** [runWithLock] not yet called *)
  | Trying (clientId : string) (attemptsRemaining : nat)
      (** about to run [attemptLock(attemptsRemaining)] *)
  | InBody (clientId : string)
      (** lock obtained, [fn] started *)
  | BodyRead (clientId : string) (v : nat)
      (** [fn] has read the counter *)
  | Releasing (clientId : string) (result : nat)
      (** [fn] returned [result]; the [finally] block runs [releaseLock] *)
  | Returned (result : nat)
  | Raised (e : exn).

(** The identifier a call chain holds while it runs. *)
Definition clientId_of (p : pstate) : option string :=
  match p with
  | Trying t _ | InBody t | BodyRead t _ | Releasing t _ => Some t
  | _ => None
  end.

(** Between a successful acquire and the release. *)
Definition holder_of (p : pstate) : option string :=
  match p with
  | InBody t | BodyRead t _ | Releasing t _ => Some t
  | _ => None
  end.

(** The value [fn] returned. *)
Definition value_of (p : pstate) : option nat :=
  match p with
  | Releasing _ r | Returned r => Some r
  | _ => None
  end.

Inductive chain_event :=
  | Minted (clientId : string)
      (** [setClientID('clientId', generateUuid())] *)
  | Issued (c : command).

Record cstate := mkState {
  store : Redis.store;
  now : Z;
  counter : nat;
  uuids : nat;
  procs : list pstate;
  log : list (nat * chain_event) }.

Inductive label :=
  | Tick
  | Run (i : nat)
  | Reject (i : nat) (executed : bool) (m : string)
      (** the client rejects the command chain [i] sends
          ([sendCommand] throws with message [m], as on a closed
          connection); with [executed] the server ran the script
          before its reply was lost *).

Section Step.
Variable opts : options.
Variables (lockKey : string) (releaseTime : Z).

Definition set_proc (s : cstate) (i : nat) (p : pstate) : cstate :=
  mkState (store s) (now s) (counter s) (uuids s) (<[i := p]> (procs s)) (log s).

(** Process [i] sends [c]: the server answers from its key space. *)
Definition issue (s : cstate) (i : nat) (c : command) : reply * cstate :=
  let '(r, st') := eval_on (store s) (now s) c in
  (r, mkState st' (now s) (counter s) (uuids s) (procs s) ((i, Issued c) :: log s)).

(** Process [i] sends [c] and the client rejects it with [m]. *)
Definition issue_rejected (executed : bool) (m : string) (s : cstate) (i : nat)
    (c : command) : reply * cstate :=
  let st' := if executed then snd (eval_on (store s) (now s) c) else store s in
  (Rejected m, mkState st' (now s) (counter s) (uuids s) (procs s) ((i, Issued c) :: log s)).

(** The states in which a chain is about to send a script. *)
Definition sends_command (p : pstate) : bool :=
  match p with
  | Trying _ (S _) | Releasing _ _ => true
  | _ => false
  end.

Definition proc_step (send : cstate -> nat -> command -> reply * cstate)
    (s : cstate) (i : nat) (p : pstate) : option cstate :=
  match p with
  | Idle =>
      (* registerContext(); setClientID('clientId', generateUuid());
         const clientId = get('clientId'): synchronous, no suspension *)
      let t := uuid_string (uuids s) in
      Some (mkState (store s) (now s) (counter s) (S (uuids s))
              (<[i := Trying t (maxAttempts opts)]> (procs s)) ((i, Minted t) :: log s))
  | Trying t O =>
      Some (set_proc s i (Raised (MurLockException (AcquireFailed lockKey
              (MurLockException (ObtainFailedAfter lockKey (maxAttempts opts)))))))
  | Trying t (S n) =>
      let '(r, s') := send s i (EvalLock lockKey t releaseTime) in
      match r with
      | Int z =>
          if bool_decide (z = 1%Z) then Some (set_proc s' i (InBody t))
          else Some (set_proc s' i (Trying t n))
      | Rejected m =>
          Some (set_proc s' i (Raised (MurLockException (AcquireFailed lockKey
                  (MurLockException (UnexpectedError lockKey (RedisError m)))))))
      end
  | InBody t => Some (set_proc s i (BodyRead t (counter s)))
  | BodyRead t v =>
      Some (mkState (store s) (now s) (S v) (uuids s)
              (<[i := Releasing t (S v)]> (procs s)) (log s))
  | Releasing t r =>
      let '(rep, s') := send s i (EvalUnlock lockKey t) in
      match rep with
      | Int z =>
          if bool_decide (z = 0%Z) then
            if ignoreUnlockFail opts then Some (set_proc s' i (Returned r))
            else Some (set_proc s' i (Raised (MurLockException (ReleaseFailed lockKey
                         (MurLockException (ReleaseRefused lockKey))))))
          else Some (set_proc s' i (Returned r))
      | Rejected m =>
          Some (set_proc s' i (Raised (MurLockException (ReleaseFailed lockKey (RedisError m)))))
      end
  | Returned _ | Raised _ => None
  end.

Definition step (s : cstate) (l : label) : option cstate :=
  match l with
  | Tick => Some (mkState (store s) (now s + 1)%Z (counter s) (uuids s) (procs s) (log s))
  | Run i => p ← procs s !! i; proc_step issue s i p
  | Reject i b m =>
      p ← procs s !! i;
      if sends_command p then proc_step (issue_rejected b m) s i p else None
  end.

Fixpoint run (s : cstate) (ls : list label) : option cstate :=
  match ls with
  | [] => Some s
  | l :: ls' => s' ← step s l; run s' ls'
  end.

(** Every chain between acquire and release still finds its record
    at the next millisecond: no lease runs out before its holder
    releases it. *)
Definition lease_kept (s : cstate) : bool :=
  forallb (fun p => match holder_of p with
                    | Some t => bool_decide (Redis.get (store s) (now s + 1) lockKey = Some t)
                    | None => true
                    end) (procs s).

Definition step_kept (s : cstate) (l : label) : option cstate :=
  match l with
  | Tick => if lease_kept s then step s Tick else None
  | _ => step s l
  end.

Fixpoint run_kept (s : cstate) (ls : list label) : option cstate :=
  match ls with
  | [] => Some s
  | l :: ls' => s' ← step_kept s l; run_kept s' ls'
  end.
End Step.

(** N call chains that have not started yet, on an empty key space. *)
Definition init (N : nat) : cstate := mkState ∅ 0%Z 0 0 (replicate N Idle) [].

Definition results (s : cstate) : list nat := omap value_of (procs s).

(** A chain whose release failed: the value its body returned never
    reaches the caller. *)
Definition release_failed (p : pstate) : bool :=
  match p with
  | Raised (MurLockException (ReleaseFailed _ _)) => true
  | _ => false
  end.

Fixpoint release_failures (l : list pstate) : nat :=
  match l with
  | [] => 0
  | p :: l' => (if release_failed p then 1 else 0) + release_failures l'
  end.

End Interleaving.

(* ------------------------------------------------------------------ *)
(** ** Observations used in the statements *)

Module Observe.
Import MurLockService.

(** The world after [f] attempts starting at [attemptsRemaining = n]
    that each got [0]: [f] commands sent and the events [evs]. *)
Definition advance (w : world) (f : nat) (evs : list event) : world :=
  mkWorld (redis w) (sent w + f) (trace w ++ evs) (context w) (uuids w).

(** The events of [f] failed attempts starting at [attemptsRemaining = n]:
    each sends the lock script, then sleeps its back-off. *)
Fixpoint failed_attempts (opts : options) (lockKey : string) (releaseTime : Z)
    (clientId : string) (callWait : wait_arg) (n f : nat) : list event :=
  match f with
  | O => []
  | S f' =>
      [Sent (EvalLock lockKey clientId releaseTime); Slept (backoff_delay opts callWait n)]
        ++ failed_attempts opts lockKey releaseTime clientId callWait (pred n) f'
  end.

(** The world of a call chain right after the synchronous start of
    [runWithLock]: a new AsyncLocalStorage store holding the generated
    client id. *)
Definition started (w : world) : world :=
  mkWorld (redis w) (sent w) (trace w) (Some (<["clientId" := uuid_string (uuids w)]> ∅))
    (S (uuids w)).

(** The Redis server of the scenarios: a key held by another owner
    answers every lock attempt with 0. *)
Definition held_by_other : nat -> command -> reply := fun _ _ => Int 0%Z.

(** A server that refuses the connection at the [f]-th command (counting
    from 0) and answers [0] before. *)
Definition refuses_at (f : nat) : nat -> command -> reply := fun j _ =>
  if bool_decide (j = f) then Rejected "connect ECONNREFUSED" else Int 0%Z.

(** The lock is granted, then the release script reports [0]. *)
Definition grant_then_refuse : nat -> command -> reply := fun j c =>
  match c with
  | EvalLock _ _ _ => Int 1%Z
  | EvalUnlock _ _ => Int 0%Z
  end.

Definition fresh_world (r : nat -> command -> reply) : world := mkWorld r 0 [] None 0.
End Observe.

(** Invariants of the interleaving semantics. *)
Module ChainInv.
Import Interleaving.

(** Client ids: each one comes from [generateUuid], a chain mints one
    and only one, no two chains share one, a running chain holds its
    own, a chain not yet started has none, and every command a chain
    sends carries its own. *)
Definition tokens_ok (s : cstate) : Prop :=
  (forall i t, (i, Minted t) ∈ log s -> exists n, n < uuids s /\ t = uuid_string n) /\
  (forall i j t, (i, Minted t) ∈ log s -> (j, Minted t) ∈ log s -> i = j) /\
  (forall i t t', (i, Minted t) ∈ log s -> (i, Minted t') ∈ log s -> t = t') /\
  (forall i p t, procs s !! i = Some p -> clientId_of p = Some t -> (i, Minted t) ∈ log s) /\
  (forall i t, procs s !! i = Some Idle -> (i, Minted t) ∉ log s) /\
  (forall i c, (i, Issued c) ∈ log s -> (i, Minted (command_clientId c)) ∈ log s).

(** The lock on [lockKey]: a chain between acquire and release owns the
    live record; the values returned so far, together with one value
    for each failed release, are [1 .. counter]; and a chain that has
    read the counter read its current value. *)
Definition lock_ok (lockKey : string) (s : cstate) : Prop :=
  (forall i p t, procs s !! i = Some p -> holder_of p = Some t ->
                 Redis.get (store s) (now s) lockKey = Some t) /\
  (exists lost, length lost = release_failures (procs s) /\
                results s ++ lost ≡ₚ seq 1 (counter s)) /\
  (forall i t v, procs s !! i = Some (BodyRead t v) -> v = counter s).

End ChainInv.

(* ------------------------------------------------------------------ *)
(** ** MurLockService.log *)

Module Logging.

(** [MurLockModuleOptions['logLevel']]: [logLevel: 'none' | 'error' |
    'warn' | 'log' | 'debug']. *)
Inductive log_level := LNone | LError | LWarn | LLog | LDebug.

#[global] Instance log_level_eq_dec : EqDecision log_level.
Proof. solve_decision. Defined.

(** [const levels = ['debug', 'log', 'warn', 'error'];] *)
Definition levels : list log_level := [LDebug; LLog; LWarn; LError].

(** [Array.prototype.indexOf]: the first position, or [-1]. *)
Fixpoint indexOf (l : list log_level) (x : log_level) : Z :=
  match l with
  | [] => (-1)%Z
  | y :: l' => if decide (y = x) then 0%Z
               else let i := indexOf l' x in if bool_decide (i = -1)%Z then (-1)%Z else (i + 1)%Z
  end.

(** [log(level, message, context)] calls [this.logger[level](...)] when
    [levels.indexOf(level) >= levels.indexOf(this.options.logLevel)]. *)
Definition log_emits (logLevel level : log_level) : bool :=
  bool_decide (indexOf levels level >= indexOf levels logLevel)%Z.

End Logging.

(* ------------------------------------------------------------------ *)
(** ** AsyncStorageManager (lib/als/als-manager.ts) *)

(** The manager keeps one [Map<string, T>] per asynchronous context, in
    [AsyncLocalStorage]; here the store of the current context, [None]
    before [register] ([getStore()] is then [undefined]). Each operation
    returns its result and the store afterwards. *)
Module AsyncStorage.
Section Manager.
Context {T : Type}.

Abbreviation als := (option (gmap string T)).

(** [getStore()]: [throw new AsyncStorageManagerException('No active store found')]
    when there is none. *)
Definition getStore (st : als) : exn + gmap string T :=
  match st with
  | None => inl AsyncStorageManagerException
  | Some m => inr m
  end.

(** [register()]: [this.asyncLocalStorage.enterWith(new Map())]. *)
Definition register (st : als) : als := Some ∅.

(** [set(key, value)]: [this.getStore().set(key, value); return this;] *)
Definition set (st : als) (key : string) (value : T) : (exn + unit) * als :=
  match getStore st with
  | inl e => (inl e, st)
  | inr m => (inr tt, Some (<[key := value]> m))
  end.

(** [get(key)]: [this.getStore().get(key)], [undefined] as [None]. *)
Definition get (st : als) (key : string) : exn + option T :=
  match getStore st with
  | inl e => inl e
  | inr m => inr (m !! key)
  end.

(** [delete(key)]: [Map.prototype.delete] answers whether the key was there. *)
Definition delete (st : als) (key : string) : (exn + bool) * als :=
  match getStore st with
  | inl e => (inl e, st)
  | inr m => (inr (bool_decide (is_Some (m !! key))), Some (base.delete key m))
  end.

(** [has(key)] *)
Definition has (st : als) (key : string) : exn + bool :=
  match getStore st with
  | inl e => inl e
  | inr m => inr (bool_decide (is_Some (m !! key)))
  end.

(** [clear()] *)
Definition clear (st : als) : (exn + unit) * als :=
  match getStore st with
  | inl e => (inl e, st)
  | inr m => (inr tt, Some ∅)
  end.

(** [get size()] *)
Definition size (st : als) : exn + nat :=
  match getStore st with
  | inl e => inl e
  | inr m => inr (size m)
  end.
End Manager.
End AsyncStorage.

(* ------------------------------------------------------------------ *)
(** ** getParameterNames (lib/decorators/murlock.decorator.ts) *)

(** The parameter-name parser of the [@MurLock] decorator, over the
    source text [func.toString()] of the decorated method. A JavaScript
    string is a list of characters; the model covers ASCII text, where
    [trim] removes the characters TAB, LF, VT, FF, CR and space. *)
Module ParamNames.

Abbreviation jsstr := (list ascii).

Definition is_ws (c : ascii) : bool :=
  bool_decide (nat_of_ascii c ∈ [9; 10; 11; 12; 13; 32]).

(** Line terminators of ASCII text, where [.] of a regular expression stops. *)
Definition is_line_terminator (c : ascii) : bool :=
  bool_decide (nat_of_ascii c = 10 \/ nat_of_ascii c = 13).

Fixpoint drop_ws (s : jsstr) : jsstr :=
  match s with
  | c :: s' => if is_ws c then drop_ws s' else s
  | [] => []
  end.

Fixpoint trim_end (s : jsstr) : jsstr :=
  match s with
  | [] => []
  | c :: s' =>
      let r := trim_end s' in
      if is_ws c && bool_decide (r = []) then [] else c :: r
  end.

(** [String.prototype.trim] *)
Definition trim (s : jsstr) : jsstr := trim_end (drop_ws s).

(** [s.split(sep)[0]] for a one-character separator. *)
Fixpoint split_first (sep : ascii) (s : jsstr) : jsstr :=
  match s with
  | [] => []
  | c :: s' => if decide (c = sep) then [] else c :: split_first sep s'
  end.

(** [String.prototype.indexOf] for one character: the first position,
    or [-1]. *)
Fixpoint indexOf (s : jsstr) (c : ascii) : Z :=
  match s with
  | [] => (-1)%Z
  | d :: s' => if decide (d = c) then 0%Z
               else let i := indexOf s' c in if bool_decide (i = -1)%Z then (-1)%Z else (i + 1)%Z
  end.

(** [String.prototype.slice(start, end)]: a negative bound counts from the
    end; an empty string when [end <= start]. *)
Definition slice (s : jsstr) (start end_ : Z) : jsstr :=
  let len := Z.of_nat (length s) in
  let clamp i := if bool_decide (i < 0)%Z then Z.max (len + i) 0 else Z.min i len in
  let from := clamp start in
  let to := clamp end_ in
  take (Z.to_nat (to - from)) (drop (Z.to_nat from) s).

(** The text from the end of the current line on. *)
Fixpoint skip_line (s : jsstr) : jsstr :=
  match s with
  | [] => []
  | c :: s' => if is_line_terminator c then s else skip_line s'
  end.

(** The rest of the text after the first [*/], if any. *)
Fixpoint after_block_end (s : jsstr) : option jsstr :=
  match s with
  | "*"%char :: "/"%char :: s' => Some s'
  | _ :: s' => after_block_end s'
  | [] => None
  end.

(** [fnStr.replace(/((\/\/.*$)|(\/\*[\s\S]*?\*\/))/gm, '')]: scanning from
    the left, [//] removes the rest of its line (not the line terminator),
    [/*] removes up to and including the first [*/] after it, and a [/*]
    without a closing [*/] is no match and stays. [fuel] bounds the
    characters still to scan. *)
Fixpoint strip_comments (fuel : nat) (s : jsstr) : jsstr :=
  match fuel with
  | O => s
  | S fuel' =>
      match s with
      | "/"%char :: "/"%char :: s' =>
          strip_comments fuel' (skip_line s')
      | "/"%char :: "*"%char :: s' =>
          match after_block_end s' with
          | Some s'' => strip_comments fuel' s''
          | None => "/"%char :: strip_comments fuel' ("*"%char :: s')
          end
      | c :: s' => c :: strip_comments fuel' s'
      | [] => []
      end
  end.

(** [current.split('=')[0].trim().split(':')[0].trim()] *)
Definition param_name (current : jsstr) : jsstr :=
  trim (split_first ":"%char (trim (split_first "="%char current))).

(** The variables of the loop over [paramsStr]. *)
Record scan := mkScan {
  params : list jsstr;
  current : jsstr;
  depth : Z;
  inString : bool;
  stringChar : option ascii }.   (* [''] as [None] *)

(** [if (paramName) params.push(paramName)] *)
Definition push_name (ps : list jsstr) (current : jsstr) : list jsstr :=
  let n := param_name current in
  if bool_decide (n = []) then ps else ps ++ [n].

(** One iteration, on [char = paramsStr[i]] and [prev = paramsStr[i - 1]]
    ([undefined] at [i = 0], as [None]). *)
Definition scan_step (st : scan) (prev : option ascii) (char : ascii) : scan :=
  let add st := mkScan (params st) (current st ++ [char]) (depth st) (inString st) (stringChar st) in
  if negb (inString st) && bool_decide (char ∈ ["034"%char; "'"%char; "`"%char]) then
    add (mkScan (params st) (current st) (depth st) true (Some char))
  else if inString st && bool_decide (Some char = stringChar st)
          && bool_decide (prev <> Some "\"%char) then
    add (mkScan (params st) (current st) (depth st) false (stringChar st))
  else if negb (inString st) then
    if bool_decide (char ∈ ["("%char; "["%char; "{"%char]) then
      add (mkScan (params st) (current st) (depth st + 1) (inString st) (stringChar st))
    else if bool_decide (char ∈ [")"%char; "]"%char; "}"%char]) then
      add (mkScan (params st) (current st) (depth st - 1) (inString st) (stringChar st))
    else if bool_decide (char = ","%char /\ depth st = 0%Z) then
      mkScan (push_name (params st) (current st)) [] (depth st) (inString st) (stringChar st)
    else add st
  else add st.

Fixpoint scan_loop (st : scan) (prev : option ascii) (s : jsstr) : scan :=
  match s with
  | [] => st
  | c :: s' => scan_loop (scan_step st prev c) (Some c) s'
  end.

(** [getParameterNames], from the text [func.toString()]. *)
Definition getParameterNames (src : jsstr) : list jsstr :=
  let fnStr := strip_comments (length src) src in
  let paramsStr := slice fnStr (indexOf fnStr "("%char + 1) (indexOf fnStr ")"%char) in
  if bool_decide (trim paramsStr = []) then []
  else
    let st := scan_loop (mkScan [] [] 0 false None) None paramsStr in
    if bool_decide (trim (current st) = []) then params st
    else push_name (params st) (current st).

(** What [current.split('=')[0].trim().split(':')[0].trim()] gives when it is
    not empty: no [=], no [:], and no white space at either end. *)
Definition good_name (n : jsstr) : Prop :=
  n <> [] /\ ~ ("="%char ∈ n) /\ ~ (":"%char ∈ n) /\
  (forall c, head n = Some c -> is_ws c = false) /\
  (forall c, last n = Some c -> is_ws c = false).

End ParamNames.

(** Events appended by an acquisition. *)
Module AcquireObs.
Import MurLockService.

(** What an acquisition does to the world: it only appends events, each
    one the lock script of this key, client id and release time, or a
    back-off sleep. *)
Definition acquire_events (k ct : string) (rt : Z) (evs : list event) : Prop :=
  Forall (fun ev => ev = Sent (EvalLock k ct rt) \/ exists ms, ev = Slept ms) evs.

End AcquireObs.

(* ================================================================== *)
(** * Theorems *)

(** ** The Lua scripts *)

Section RedisFacts.
Import Redis.

Lemma set_nx_px_absent st now k v ms :
  (0 < ms)%Z -> get st now k = None ->
  set_nx_px st now k v ms = LuaOk (true, <[k := mkEntry v (now + ms)]> st).
Proof.
  intros Hms Hg. unfold set_nx_px. rewrite bool_decide_false by lia. by rewrite Hg.
Qed.

Lemma get_insert_live st now k v ms :
  (0 < ms)%Z -> get (<[k := mkEntry v (now + ms)]> st) now k = Some v.
Proof.
  intros Hms. unfold get, live. rewrite lookup_insert_eq. simpl.
  rewrite bool_decide_true by lia. done.
Qed.

Lemma get_delete st now k : get (delete k st) now k = None.
Proof. unfold get. by rewrite lookup_delete_eq. Qed.

Lemma lock_script_zero_same st now k t ms st' :
  lock_script st now k t ms = LuaOk (0%Z, st') -> st' = st.
Proof.
  unfold lock_script, set_nx_px.
  case_bool_decide; [congruence|].
  case_bool_decide; [congruence|].
  destruct (get st now k); congruence.
Qed.
End RedisFacts.

(** C2 (counterexample): a second acquire by the owner of a live record
    answers 1 but does not rewrite the record: its expiry stays 100 and
    is not [now + ttl = 3000]. *)
Lemma lock_script_same_owner_keeps_expiry :
  Redis.lock_script (<["k1" := Redis.mkEntry "tokenA" 100]> ∅) 0 "k1" "tokenA" 3000
    = Redis.LuaOk (1%Z, <["k1" := Redis.mkEntry "tokenA" 100]> ∅)
  /\ ~ (exists st', Redis.lock_script (<["k1" := Redis.mkEntry "tokenA" 100]> ∅) 0 "k1" "tokenA" 3000
                   = Redis.LuaOk (1%Z, st')
                   /\ st' !! "k1" = Some (Redis.mkEntry "tokenA" (0 + 3000))).
Proof.
  split; [reflexivity|].
  intros (st' & Hrun & Hk). vm_compute in Hrun. injection Hrun as <-.
  vm_compute in Hk. discriminate.
Qed.

(** C2 (amended): for a positive ttl, the acquire script answers 1 and
    writes [(ownerToken, now + ttl)] when the key holds no live record;
    answers 1 and writes nothing when the live record belongs to
    [ownerToken]; answers 0 and writes nothing when it belongs to another
    token. *)
Theorem lock_script_spec (st : Redis.store) (now : Z) (k tok : string) (ttl : Z) :
  (0 < ttl)%Z ->
  Redis.lock_script st now k tok ttl =
    match Redis.get st now k with
    | None => Redis.LuaOk (1%Z, <[k := Redis.mkEntry tok (now + ttl)]> st)
    | Some owner =>
        if bool_decide (owner = tok) then Redis.LuaOk (1%Z, st) else Redis.LuaOk (0%Z, st)
    end.
Proof.
  intros Httl. unfold Redis.lock_script.
  destruct (Redis.get st now k) as [owner|] eqn:Hg.
  - case_bool_decide as Heq.
    + injection Heq as ->. by rewrite bool_decide_true.
    + rewrite bool_decide_false by congruence.
      unfold Redis.set_nx_px. rewrite bool_decide_false by lia. by rewrite Hg.
  - rewrite bool_decide_false by congruence. by rewrite set_nx_px_absent.
Qed.

Lemma lock_script_spec_witness :
  (0 < 3000)%Z /\
  Redis.lock_script ∅ 0 "k1" "tokenA" 3000 =
    match Redis.get ∅ 0 "k1" with
    | None => Redis.LuaOk (1%Z, <["k1" := Redis.mkEntry "tokenA" (0 + 3000)]> ∅)
    | Some owner =>
        if bool_decide (owner = "tokenA") then Redis.LuaOk (1%Z, ∅) else Redis.LuaOk (0%Z, ∅)
    end.
Proof. split; [lia | apply (lock_script_spec ∅ 0 "k1" "tokenA" 3000); lia]. Defined.

(** C3: the release script answers 1 and deletes the record exactly when
    the live record belongs to [ownerToken]; otherwise it answers 0 and
    leaves the key space unchanged, so a release with tokenB while
    tokenA's record is live leaves that record, owned by tokenA. *)
Theorem unlock_script_spec (st : Redis.store) (now : Z) (k tok : string) :
  ((Redis.get st now k = Some tok /\
    Redis.unlock_script st now k tok = (1%Z, delete k st) /\
    Redis.get (delete k st) now k = None)
   \/ (Redis.get st now k <> Some tok /\ Redis.unlock_script st now k tok = (0%Z, st)))
  /\ (forall tokenA, Redis.get st now k = Some tokenA -> tokenA <> tok ->
        Redis.unlock_script st now k tok = (0%Z, st) /\ Redis.get st now k = Some tokenA).
Proof.
  unfold Redis.unlock_script. split.
  - case_bool_decide as Heq.
    + left. split; [done|]. split; [|apply get_delete].
      unfold Redis.del. by rewrite Heq.
    + right. done.
  - intros tokenA HA Hne. rewrite bool_decide_false by congruence. done.
Qed.

(** ** One call chain: the acquire loop and [runWithLock] *)

Section ServiceFacts.
Import MurLockService Observe.

Lemma world_eta (w : world) :
  mkWorld (redis w) (sent w) (trace w) (context w) (uuids w) = w.
Proof. by destruct w. Qed.

Lemma advance_0 (w : world) : advance w 0 [] = w.
Proof. unfold advance. rewrite Nat.add_0_r, app_nil_r. apply world_eta. Qed.

(** [f] attempts answered [0] only send, sleep and count down. *)
Lemma attemptLock_failures opts k rt ct cw :
  forall f n w, f <= n ->
  (forall j, j < f -> redis w (sent w + j) (EvalLock k ct rt) = Int 0%Z) ->
  attemptLock opts k rt ct cw n w
    = attemptLock opts k rt ct cw (n - f) (advance w f (failed_attempts opts k rt ct cw n f)).
Proof.
  induction f as [|f IH]; intros n w Hle Hz.
  - rewrite Nat.sub_0_r. simpl. by rewrite advance_0.
  - destruct n as [|n]; [lia|].
    assert (H0 : redis w (sent w) (EvalLock k ct rt) = Int 0%Z).
    { rewrite <- (Nat.add_0_r (sent w)). apply Hz. lia. }
    set (w1 := mkWorld (redis w) (S (sent w))
                 ((trace w ++ [Sent (EvalLock k ct rt)]) ++ [Slept (backoff_delay opts cw (S n))])
                 (context w) (uuids w)).
    assert (Hstep : attemptLock opts k rt ct cw (S n) w = attemptLock opts k rt ct cw n w1).
    { cbn [attemptLock]. unfold attempt_try.
      unfold mbind, M_bind, bind, try_catch, sendCommand. rewrite H0. cbn. reflexivity. }
    rewrite Hstep, (IH n w1); [| lia |].
    + simpl. f_equal. unfold advance, w1. simpl. f_equal; [lia|].
      by rewrite <- !app_assoc.
    + intros j Hj. unfold w1. simpl.
      replace (S (sent w + j)) with (sent w + S j) by lia. apply Hz. lia.
Qed.

(** All [n] attempts answered [0]: the exhaustion exception, unwrapped. *)
Lemma attemptLock_exhausted opts k rt ct cw n w :
  (forall j, j < n -> redis w (sent w + j) (EvalLock k ct rt) = Int 0%Z) ->
  attemptLock opts k rt ct cw n w
    = (inl (MurLockException (ObtainFailedAfter k (maxAttempts opts))),
       advance w n (failed_attempts opts k rt ct cw n n)).
Proof.
  intros Hz. rewrite (attemptLock_failures opts k rt ct cw n n w); [|lia|done].
  by rewrite Nat.sub_diag.
Qed.

(** The [f]-th attempt (after [f] failures) is rejected by the client:
    the rejection is wrapped once, nothing is sent or slept after it. *)
Lemma attemptLock_rejected opts k rt ct cw n f w m :
  f < n ->
  (forall j, j < f -> redis w (sent w + j) (EvalLock k ct rt) = Int 0%Z) ->
  redis w (sent w + f) (EvalLock k ct rt) = Rejected m ->
  attemptLock opts k rt ct cw n w
    = (inl (MurLockException (UnexpectedError k (RedisError m))),
       advance w (S f) (failed_attempts opts k rt ct cw n f ++ [Sent (EvalLock k ct rt)])).
Proof.
  intros Hlt Hz Hm. rewrite (attemptLock_failures opts k rt ct cw f n w); [|lia|done].
  destruct (n - f) as [|r] eqn:Hr; [lia|].
  cbn [attemptLock]. unfold attempt_try.
  unfold mbind, M_bind, bind, try_catch, sendCommand.
  unfold advance at 1 2. cbn [redis sent]. rewrite Hm. cbn.
  unfold advance. f_equal. f_equal; [lia|]. by rewrite <- app_assoc.
Qed.

(** The synchronous start of [runWithLock]: a fresh client id, stored in
    a new AsyncLocalStorage store and read back. *)
Lemma runWithLock_prelude {R} opts k rt cw (fn : M R) w :
  runWithLock opts k rt cw fn w
    = (acquireLock opts k rt (uuid_string (uuids w)) cw;;
       try_finally fn (releaseLock opts k (uuid_string (uuids w)))) (started w).
Proof.
  unfold runWithLock, mbind, M_bind, bind at 1. cbn.
  unfold setClientID, als_get. cbn.
  rewrite lookup_insert_eq. reflexivity.
Qed.

Lemma acquireLock_exhausted opts k rt ct cw w :
  (forall j, redis w j (EvalLock k ct rt) = Int 0%Z) ->
  acquireLock opts k rt ct cw w
    = (inl (MurLockException (AcquireFailed k
             (MurLockException (ObtainFailedAfter k (maxAttempts opts))))),
       advance w (maxAttempts opts)
         (failed_attempts opts k rt ct cw (maxAttempts opts) (maxAttempts opts))).
Proof.
  intros Hz. unfold acquireLock, lock, mbind, M_bind, bind, try_catch.
  rewrite attemptLock_exhausted by (intros; apply Hz). reflexivity.
Qed.

Lemma acquireLock_rejected opts k rt ct cw f w m :
  f < maxAttempts opts ->
  (forall j, j < f -> redis w (sent w + j) (EvalLock k ct rt) = Int 0%Z) ->
  redis w (sent w + f) (EvalLock k ct rt) = Rejected m ->
  acquireLock opts k rt ct cw w
    = (inl (MurLockException (AcquireFailed k
             (MurLockException (UnexpectedError k (RedisError m))))),
       advance w (S f)
         (failed_attempts opts k rt ct cw (maxAttempts opts) f ++ [Sent (EvalLock k ct rt)])).
Proof.
  intros Hlt Hz Hm. unfold acquireLock, lock, mbind, M_bind, bind, try_catch.
  rewrite (attemptLock_rejected opts k rt ct cw _ f w m) by done. reflexivity.
Qed.
End ServiceFacts.

Section ServiceClaims.
Import MurLockService Observe.

(** C4: in bounded mode, when every acquire attempt of the call is
    answered [0] (the key stays held by another owner), [runWithLock]
    raises the acquisition failure after exactly [maxAttempts] attempts,
    each followed by its back-off sleep, the last one included; the
    protected operation is never run (the outcome does not depend on
    it). With [maxAttempts = 1], [wait = 50] and no per-call wait, that
    is one attempt and one 50 ms sleep. *)
Theorem runWithLock_bounded_exhaustion {R} (opts : options) (k : string) (rt : Z)
    (cw : wait_arg) (fn : M R) (w : world) :
  (forall j, redis w j (EvalLock k (uuid_string (uuids w)) rt) = Int 0%Z) ->
  runWithLock opts k rt cw fn w
    = (inl (MurLockException (AcquireFailed k
             (MurLockException (ObtainFailedAfter k (maxAttempts opts))))),
       advance (started w) (maxAttempts opts)
         (failed_attempts opts k rt (uuid_string (uuids w)) cw
            (maxAttempts opts) (maxAttempts opts)))
  /\ (maxAttempts opts = 1 -> wait opts = 50%Z -> cw = WaitUndefined ->
      failed_attempts opts k rt (uuid_string (uuids w)) cw (maxAttempts opts) (maxAttempts opts)
        = [Sent (EvalLock k (uuid_string (uuids w)) rt); Slept 50]).
Proof.
  intros Hz. split.
  - rewrite runWithLock_prelude. unfold mbind, M_bind, bind.
    rewrite acquireLock_exhausted by (intros; apply Hz). reflexivity.
  - intros H1 H50 ->. rewrite H1. simpl. unfold backoff_delay. rewrite H1, H50. reflexivity.
Qed.

Lemma runWithLock_bounded_exhaustion_witness :
  (forall j, redis (fresh_world held_by_other) j (EvalLock "k1" (uuid_string 0) 3000)
             = Int 0%Z) /\
  runWithLock (mkOptions 50 1 false) "k1" 3000 WaitUndefined (ret 0) (fresh_world held_by_other)
    = (inl (MurLockException (AcquireFailed "k1" (MurLockException (ObtainFailedAfter "k1" 1)))),
       advance (started (fresh_world held_by_other)) 1
         (failed_attempts (mkOptions 50 1 false) "k1" 3000 (uuid_string 0) WaitUndefined 1 1))
  /\ (maxAttempts (mkOptions 50 1 false) = 1 -> wait (mkOptions 50 1 false) = 50%Z ->
      WaitUndefined = WaitUndefined ->
      failed_attempts (mkOptions 50 1 false) "k1" 3000 (uuid_string 0) WaitUndefined 1 1
        = [Sent (EvalLock "k1" (uuid_string 0) 3000); Slept 50]).
Proof.
  split; [intros j; reflexivity|].
  apply (runWithLock_bounded_exhaustion (mkOptions 50 1 false) "k1" 3000 WaitUndefined
           (ret 0) (fresh_world held_by_other)).
  intros j; reflexivity.
Defined.

(** C5 (failing input): the options have no blocking flag and the
    service reads none. With the configuration of the blocking-mode test ([wait = 100],
    [maxAttempts = 1]) and the key held by another owner, [runWithLock]
    raises the acquisition failure. *)
Lemma runWithLock_no_blocking_mode :
  fst (runWithLock (mkOptions 100 1 false) "integration:blocking:lock" 500 WaitUndefined
         (ret tt) (fresh_world held_by_other))
    = inl (MurLockException (AcquireFailed "integration:blocking:lock"
             (MurLockException (ObtainFailedAfter "integration:blocking:lock" 1)))).
Proof. vm_compute. reflexivity. Qed.

(** C5 (code bug): there is no blocking mode; for every [maxAttempts]
    that is a non-negative integer, a call whose every acquire attempt
    is answered [0] raises the acquisition failure once [maxAttempts]
    attempts are used, instead of retrying until the key is free. *)
Theorem runWithLock_always_bounded {R} (opts : options) (k : string) (rt : Z)
    (cw : wait_arg) (fn : M R) (w : world) :
  (forall j, redis w j (EvalLock k (uuid_string (uuids w)) rt) = Int 0%Z) ->
  fst (runWithLock opts k rt cw fn w)
    = inl (MurLockException (AcquireFailed k
             (MurLockException (ObtainFailedAfter k (maxAttempts opts))))).
Proof.
  intros Hz. rewrite runWithLock_prelude. unfold mbind, M_bind, bind.
  rewrite acquireLock_exhausted by (intros; apply Hz). reflexivity.
Qed.

Lemma runWithLock_always_bounded_witness :
  (forall j, redis (fresh_world held_by_other) j
               (EvalLock "integration:blocking:lock" (uuid_string 0) 500) = Int 0%Z) /\
  fst (runWithLock (mkOptions 100 1 false) "integration:blocking:lock" 500 WaitUndefined
         (ret tt) (fresh_world held_by_other))
    = inl (MurLockException (AcquireFailed "integration:blocking:lock"
             (MurLockException (ObtainFailedAfter "integration:blocking:lock" 1)))).
Proof.
  split; [intros j; reflexivity|].
  apply (runWithLock_always_bounded (mkOptions 100 1 false) "integration:blocking:lock" 500
           WaitUndefined (ret tt) (fresh_world held_by_other)).
  intros j; reflexivity.
Defined.

(** C6 (counterexample): the operation throws, then the release script
    answers [0] with [ignoreUnlockFail] off: the caller receives the
    release failure, not the operation's error. *)
Lemma runWithLock_release_error_masks_body :
  fst (runWithLock (mkOptions 50 3 false) "k1" 3000 WaitUndefined
         (throw (BodyError 1) : M unit) (fresh_world grant_then_refuse))
    = inl (MurLockException (ReleaseFailed "k1" (MurLockException (ReleaseRefused "k1"))))
  /\ fst (runWithLock (mkOptions 50 3 false) "k1" 3000 WaitUndefined
            (throw (BodyError 1) : M unit) (fresh_world grant_then_refuse))
     <> inl (BodyError 1).
Proof. vm_compute. split; [reflexivity | discriminate]. Qed.

(** C6 (amended): once the acquisition succeeded, the operation runs,
    then the release is attempted whatever the operation's outcome; a
    failing release replaces the operation's result or error with its
    own exception; otherwise the operation's result or error is what
    the caller receives. *)
Theorem runWithLock_release_after_body {R} (opts : options) (k : string) (rt : Z)
    (cw : wait_arg) (fn : M R) (w w1 : world) :
  acquireLock opts k rt (uuid_string (uuids w)) cw (started w) = (inr tt, w1) ->
  runWithLock opts k rt cw fn w
    = (let '(r, w2) := fn w1 in
       match releaseLock opts k (uuid_string (uuids w)) w2 with
       | (inl e, w3) => (inl e, w3)
       | (inr _, w3) => (r, w3)
       end).
Proof.
  intros Hacq. rewrite runWithLock_prelude. unfold mbind, M_bind, bind.
  rewrite Hacq. unfold try_finally. reflexivity.
Qed.

Lemma runWithLock_release_after_body_witness :
  acquireLock (mkOptions 50 3 false) "k1" 3000 (uuid_string 0) WaitUndefined
    (started (fresh_world grant_then_refuse))
    = (inr tt, mkWorld grant_then_refuse 1 [Sent (EvalLock "k1" (uuid_string 0) 3000)]
                 (Some (<["clientId" := uuid_string 0]> ∅)) 1) /\
  runWithLock (mkOptions 50 3 false) "k1" 3000 WaitUndefined
    (throw (BodyError 1) : M unit) (fresh_world grant_then_refuse)
    = (let '(r, w2) := (throw (BodyError 1) : M unit)
                         (mkWorld grant_then_refuse 1 [Sent (EvalLock "k1" (uuid_string 0) 3000)]
                            (Some (<["clientId" := uuid_string 0]> ∅)) 1) in
       match releaseLock (mkOptions 50 3 false) "k1" (uuid_string 0) w2 with
       | (inl e, w3) => (inl e, w3)
       | (inr _, w3) => (r, w3)
       end).
Proof.
  assert (H : acquireLock (mkOptions 50 3 false) "k1" 3000 (uuid_string 0) WaitUndefined
                (started (fresh_world grant_then_refuse))
              = (inr tt, mkWorld grant_then_refuse 1 [Sent (EvalLock "k1" (uuid_string 0) 3000)]
                           (Some (<["clientId" := uuid_string 0]> ∅)) 1)).
  { vm_compute. reflexivity. }
  split; [exact H|].
  exact (runWithLock_release_after_body (mkOptions 50 3 false) "k1" 3000 WaitUndefined
           (throw (BodyError 1)) (fresh_world grant_then_refuse) _ H).
Defined.
End ServiceClaims.

Section ServiceClaims2.
Import MurLockService Observe.

(** The cases of the back-off where the per-call wait is honoured. *)
Lemma backoff_delay_cases (opts : options) (n : nat) :
  let i := (Z.of_nat (maxAttempts opts) - Z.of_nat n + 1)%Z in
  (forall f, backoff_delay opts (WaitFunction f) n = f i) /\
  (forall ms, ms <> 0%Z -> backoff_delay opts (WaitNumber ms) n = ms) /\
  backoff_delay opts WaitUndefined n = (wait opts * i)%Z.
Proof.
  simpl. split; [done|]. split; [|done].
  intros ms Hms. unfold backoff_delay. by rewrite bool_decide_false.
Qed.

(** C7 (counterexample): a refused connection at the first attempt and
    plain contention both reach the caller as a [MurLockException]
    [Failed to acquire lock for key ...]; the client error itself is not
    what the caller receives. *)
Lemma runWithLock_store_error_same_class :
  fst (runWithLock (mkOptions 50 3 false) "k1" 3000 WaitUndefined (ret tt)
         (fresh_world (refuses_at 0)))
    = inl (MurLockException (AcquireFailed "k1"
             (MurLockException (UnexpectedError "k1" (RedisError "connect ECONNREFUSED")))))
  /\ fst (runWithLock (mkOptions 50 3 false) "k1" 3000 WaitUndefined (ret tt)
            (fresh_world held_by_other))
     = inl (MurLockException (AcquireFailed "k1" (MurLockException (ObtainFailedAfter "k1" 3))))
  /\ (forall m, fst (runWithLock (mkOptions 50 3 false) "k1" 3000 WaitUndefined (ret tt)
                      (fresh_world (refuses_at 0))) <> inl (RedisError m)).
Proof.
  vm_compute. split; [reflexivity|]. split; [reflexivity|]. intros m; discriminate.
Qed.

(** C7 (amended): when the attempt after [f] contended attempts is
    rejected by the client ([f < maxAttempts]), nothing more is sent and
    nothing more is slept; the caller receives the [MurLockException]
    [Failed to acquire lock for key K: Unexpected error when trying to
    obtain lock for key K: <client message>], of the same class as the
    exhaustion failure and told apart from it by its message. *)
Theorem runWithLock_store_error_not_retried {R} (opts : options) (k : string) (rt : Z)
    (cw : wait_arg) (fn : M R) (w : world) (f : nat) (m : string) :
  f < maxAttempts opts ->
  (forall j, j < f -> redis w (sent w + j) (EvalLock k (uuid_string (uuids w)) rt) = Int 0%Z) ->
  redis w (sent w + f) (EvalLock k (uuid_string (uuids w)) rt) = Rejected m ->
  runWithLock opts k rt cw fn w
    = (inl (MurLockException (AcquireFailed k
             (MurLockException (UnexpectedError k (RedisError m))))),
       advance (started w) (S f)
         (failed_attempts opts k rt (uuid_string (uuids w)) cw (maxAttempts opts) f
            ++ [Sent (EvalLock k (uuid_string (uuids w)) rt)]))
  /\ MurLockException (AcquireFailed k (MurLockException (UnexpectedError k (RedisError m))))
     <> MurLockException (AcquireFailed k (MurLockException (ObtainFailedAfter k (maxAttempts opts)))).
Proof.
  intros Hlt Hz Hm. split; [|discriminate].
  rewrite runWithLock_prelude. unfold mbind, M_bind, bind.
  rewrite (acquireLock_rejected opts k rt _ cw f (started w) m) by done. reflexivity.
Qed.

Lemma runWithLock_store_error_not_retried_witness :
  1 < maxAttempts (mkOptions 50 3 false) /\
  (forall j, j < 1 -> redis (fresh_world (refuses_at 1)) (0 + j)
                        (EvalLock "k1" (uuid_string 0) 3000) = Int 0%Z) /\
  redis (fresh_world (refuses_at 1)) (0 + 1) (EvalLock "k1" (uuid_string 0) 3000)
    = Rejected "connect ECONNREFUSED" /\
  runWithLock (mkOptions 50 3 false) "k1" 3000 WaitUndefined (ret tt) (fresh_world (refuses_at 1))
    = (inl (MurLockException (AcquireFailed "k1"
             (MurLockException (UnexpectedError "k1" (RedisError "connect ECONNREFUSED"))))),
       advance (started (fresh_world (refuses_at 1))) 2
         (failed_attempts (mkOptions 50 3 false) "k1" 3000 (uuid_string 0) WaitUndefined 3 1
            ++ [Sent (EvalLock "k1" (uuid_string 0) 3000)])).
Proof.
  assert (Hz : forall j, j < 1 -> redis (fresh_world (refuses_at 1)) (0 + j)
                 (EvalLock "k1" (uuid_string 0) 3000) = Int 0%Z).
  { intros j Hj. simpl. unfold refuses_at. rewrite bool_decide_false by lia. reflexivity. }
  split; [simpl; lia|]. split; [exact Hz|]. split; [reflexivity|].
  exact (proj1 (runWithLock_store_error_not_retried (mkOptions 50 3 false) "k1" 3000
                  WaitUndefined (ret tt) (fresh_world (refuses_at 1)) 1 "connect ECONNREFUSED"
                  ltac:(simpl; lia) Hz eq_refl)).
Defined.

(** C8 (code bug): a fixed per-call wait of 0 is a falsy number, so the
    default [options.wait * attempt] is slept instead: with
    [options.wait = 50] and three refused attempts the sleeps are 50,
    100 and 150 ms, not 0. *)
Theorem backoff_fixed_zero_wait_ignored :
  backoff_delay (mkOptions 50 3 false) (WaitNumber 0) 3 = 50%Z /\
  trace (snd (runWithLock (mkOptions 50 3 false) "k1" 3000 (WaitNumber 0) (ret tt)
                (fresh_world held_by_other)))
    = [Sent (EvalLock "k1" (uuid_string 0) 3000); Slept 50;
       Sent (EvalLock "k1" (uuid_string 0) 3000); Slept 100;
       Sent (EvalLock "k1" (uuid_string 0) 3000); Slept 150].
Proof. split; vm_compute; reflexivity. Qed.

(** C10 (counterexample): with [maxAttempts = 2] and the key held, the
    exhaustion exception reaches [acquireLock] as thrown by the last
    call of [attemptLock]: no enclosing attempt wraps it with
    [Unexpected error when trying to obtain lock ...]. *)
Lemma acquire_exhaustion_not_rewrapped :
  fst (runWithLock (mkOptions 50 2 false) "k1" 3000 WaitUndefined (ret tt)
         (fresh_world held_by_other))
    = inl (MurLockException (AcquireFailed "k1" (MurLockException (ObtainFailedAfter "k1" 2))))
  /\ (forall e, fst (runWithLock (mkOptions 50 2 false) "k1" 3000 WaitUndefined (ret tt)
                      (fresh_world held_by_other))
                <> inl (MurLockException (AcquireFailed "k1"
                          (MurLockException (UnexpectedError "k1" e))))).
Proof. vm_compute. split; [reflexivity|]. intros e; discriminate. Qed.

(** C10 (amended): [return attemptLock(attemptsRemaining - 1)] hands the
    next attempt's promise back without awaiting it inside the [try],
    so no attempt catches an error of a later one. Exhaustion reaches
    [acquireLock] unwrapped ([Failed to obtain lock for key K after M
    attempts.]); a client error is wrapped exactly once with [Unexpected
    error when trying to obtain lock ...], whatever the attempt it hits. *)
Theorem acquireLock_wrapping (opts : options) (k : string) (rt : Z) (ct : string)
    (cw : wait_arg) (w : world) :
  ((forall j, redis w j (EvalLock k ct rt) = Int 0%Z) ->
   fst (acquireLock opts k rt ct cw w)
     = inl (MurLockException (AcquireFailed k
              (MurLockException (ObtainFailedAfter k (maxAttempts opts))))))
  /\ (forall f m, f < maxAttempts opts ->
      (forall j, j < f -> redis w (sent w + j) (EvalLock k ct rt) = Int 0%Z) ->
      redis w (sent w + f) (EvalLock k ct rt) = Rejected m ->
      fst (acquireLock opts k rt ct cw w)
        = inl (MurLockException (AcquireFailed k
                 (MurLockException (UnexpectedError k (RedisError m)))))).
Proof.
  split.
  - intros Hz. by rewrite acquireLock_exhausted.
  - intros f m Hlt Hz Hm. by rewrite (acquireLock_rejected opts k rt ct cw f w m).
Qed.

Lemma acquireLock_wrapping_witness :
  fst (acquireLock (mkOptions 50 2 false) "k1" 3000 "tokenA" WaitUndefined
         (fresh_world held_by_other))
    = inl (MurLockException (AcquireFailed "k1" (MurLockException (ObtainFailedAfter "k1" 2))))
  /\ fst (acquireLock (mkOptions 50 2 false) "k1" 3000 "tokenA" WaitUndefined
            (fresh_world (refuses_at 1)))
     = inl (MurLockException (AcquireFailed "k1"
              (MurLockException (UnexpectedError "k1" (RedisError "connect ECONNREFUSED"))))).
Proof.
  split.
  - apply (proj1 (acquireLock_wrapping (mkOptions 50 2 false) "k1" 3000 "tokenA"
                    WaitUndefined (fresh_world held_by_other))).
    intros j; reflexivity.
  - apply (proj2 (acquireLock_wrapping (mkOptions 50 2 false) "k1" 3000 "tokenA"
                    WaitUndefined (fresh_world (refuses_at 1))) 1); [simpl; lia | | reflexivity].
    intros j Hj. simpl. unfold refuses_at. rewrite bool_decide_false by lia. reflexivity.
Defined.
End ServiceClaims2.

(** ** Concurrent call chains *)

Section ListFacts.
Context {A B : Type} (f : A -> option B).

Lemma omap_insert_same (l : list A) i x y :
  l !! i = Some x -> f y = f x -> omap f (<[i := y]> l) = omap f l.
Proof.
  revert i. induction l as [|a l IH]; intros [|i] Hx Hf; try discriminate; simpl in *.
  - injection Hx as ->. by rewrite Hf.
  - destruct (f a); [f_equal|]; apply (IH i Hx Hf).
Qed.

Lemma omap_insert_new (l : list A) i x y b :
  l !! i = Some x -> f x = None -> f y = Some b ->
  omap f (<[i := y]> l) ≡ₚ b :: omap f l.
Proof.
  revert i. induction l as [|a l IH]; intros [|i] Hx Hfx Hfy; try discriminate; simpl in *.
  - injection Hx as ->. by rewrite Hfx, Hfy.
  - destruct (f a); [|by apply (IH i Hx Hfx Hfy)].
    etrans; [apply perm_skip, (IH i Hx Hfx Hfy)|apply perm_swap].
Qed.
End ListFacts.

Lemma uuid_string_inj (a b : nat) : uuid_string a = uuid_string b -> a = b.
Proof. unfold uuid_string. intros H. apply (inj (String.app "uuid-")) in H. by apply (inj pretty) in H. Qed.

Section TokenFacts.
Import MurLockService Interleaving ChainInv.

(** Side conditions of [tokens_ok_update]. *)
Local Ltac tok_side :=
  first [ done
        | let t := fresh "t" in let H := fresh "H" in
          intros t H; simpl in *; congruence
        | let c := fresh "c" in let H := fresh "H" in
          intros c H; first [ apply elem_of_nil in H as []
                            | apply list_elem_of_singleton in H as ->; done ] ].

Lemma tokens_ok_init N : tokens_ok (init N).
Proof.
  unfold init. repeat split; simpl; try (intros; by apply elem_of_nil in H).
  - intros i p t Hp. apply lookup_replicate in Hp as [-> _]. done.
  - intros i t _ H. by apply elem_of_nil in H.
Qed.

(** A running chain moves to another state with its own client id (or
    none), sending commands with its own client id. *)
Lemma tokens_ok_update s i p p' (evs : list command) st now' counter' :
  tokens_ok s -> procs s !! i = Some p -> p <> Idle -> p' <> Idle ->
  (forall t, clientId_of p' = Some t -> clientId_of p = Some t) ->
  (forall c, c ∈ evs -> clientId_of p = Some (command_clientId c)) ->
  tokens_ok (mkState st now' counter' (uuids s) (<[i := p']> (procs s))
               (map (fun c => (i, Issued c)) evs ++ log s)).
Proof.
  intros (T1 & T2 & T3 & T4 & T5 & T6) Hp Hidle Hidle' Hp' Hevs.
  assert (Hmint : forall j t, (j, Minted t) ∈ map (fun c => (i, Issued c)) evs ++ log s ->
                              (j, Minted t) ∈ log s).
  { intros j t H. apply elem_of_app in H as [H|H]; [|done].
    apply list_elem_of_fmap in H as (c & Hc & _). discriminate. }
  repeat split; simpl.
  - intros j t H. by apply T1 with j, Hmint.
  - intros j j' t H H'. by apply (T2 j j' t); apply Hmint.
  - intros j t t' H H'. by apply (T3 j t t'); apply Hmint.
  - intros j q t Hq Ht. apply elem_of_app. right.
    destruct (decide (i = j)) as [<-|Hne].
    + rewrite list_lookup_insert_eq in Hq by (by eapply lookup_lt_Some).
      injection Hq as <-. by apply (T4 i p), Hp'.
    + rewrite list_lookup_insert_ne in Hq by done. by apply (T4 j q).
  - intros j t Hq H. apply Hmint in H.
    destruct (decide (i = j)) as [<-|Hne].
    + rewrite list_lookup_insert_eq in Hq by (by eapply lookup_lt_Some). congruence.
    + rewrite list_lookup_insert_ne in Hq by done. by apply (T5 j t).
  - intros j c H. apply elem_of_app. right.
    apply elem_of_app in H as [H|H]; [|by apply T6].
    apply list_elem_of_fmap in H as (c' & Hc & Hin). injection Hc as -> ->.
    apply (T4 i p); [done|]. by apply Hevs.
Qed.

(** The two ways a chain's command is sent: answered by the server, or
    rejected by the client, the server having run it or not. *)
Lemma issue_send s i c r s1 :
  issue s i c = (r, s1) ->
  exists st', s1 = mkState st' (now s) (counter s) (uuids s) (procs s) ((i, Issued c) :: log s) /\
    ((r, st') = eval_on (store s) (now s) c \/
     (exists m, r = Rejected m) /\ (st' = store s \/ st' = snd (eval_on (store s) (now s) c))).
Proof.
  unfold issue. destruct (eval_on (store s) (now s) c) as [r0 st0] eqn:E.
  intros [= <- <-]. exists st0. split; [done|]. by left.
Qed.

Lemma issue_rejected_send b m s i c r s1 :
  issue_rejected b m s i c = (r, s1) ->
  exists st', s1 = mkState st' (now s) (counter s) (uuids s) (procs s) ((i, Issued c) :: log s) /\
    ((r, st') = eval_on (store s) (now s) c \/
     (exists m, r = Rejected m) /\ (st' = store s \/ st' = snd (eval_on (store s) (now s) c))).
Proof.
  unfold issue_rejected. intros [= <- <-]. eexists. split; [done|]. right.
  split; [by eexists|]. destruct b; [right|left]; done.
Qed.

Lemma proc_step_tokens_ok opts k rt send s i p s' :
  (forall c r s1, send s i c = (r, s1) ->
     exists st', s1 = mkState st' (now s) (counter s) (uuids s) (procs s) ((i, Issued c) :: log s)) ->
  tokens_ok s -> procs s !! i = Some p -> proc_step opts k rt send s i p = Some s' -> tokens_ok s'.
Proof.
  intros Hsend Hok Hp Hs.
  destruct p as [|t [|n]|t|t v|t r|r|e]; simpl in Hs.
  - (* Idle: the client id is minted *)
    injection Hs as <-. destruct Hok as (T1 & T2 & T3 & T4 & T5 & T6).
    assert (Hlt : i < length (procs s)) by (by eapply lookup_lt_Some).
    repeat split; simpl.
    + intros j t H. apply elem_of_cons in H as [H|H].
      * injection H as -> ->. exists (uuids s). split; [lia|done].
      * destruct (T1 j t H) as (n & Hn & ->). exists n. split; [lia|done].
    + intros j j' t H H'. apply elem_of_cons in H as [H|H]; apply elem_of_cons in H' as [H'|H'].
      * injection H as -> ->. by injection H' as ->.
      * injection H as -> ->. destruct (T1 j' _ H') as (n & Hn & Heq).
        apply uuid_string_inj in Heq. lia.
      * injection H' as -> ->. destruct (T1 j _ H) as (n & Hn & Heq).
        apply uuid_string_inj in Heq. lia.
      * by apply (T2 j j' t).
    + intros j t t' H H'. apply elem_of_cons in H as [H|H]; apply elem_of_cons in H' as [H'|H'].
      * simplify_eq. done.
      * simplify_eq. by destruct (T5 _ _ Hp H').
      * simplify_eq. by destruct (T5 _ _ Hp H).
      * by apply (T3 j t t').
    + intros j q t Hq Ht. apply elem_of_cons.
      destruct (decide (i = j)) as [<-|Hne].
      * rewrite list_lookup_insert_eq in Hq by done. injection Hq as <-.
        injection Ht as <-. by left.
      * rewrite list_lookup_insert_ne in Hq by done. right. by apply (T4 j q).
    + intros j t Hq H. apply elem_of_cons in H as [H|H].
      * injection H as -> ->. rewrite list_lookup_insert_eq in Hq by done. discriminate.
      * destruct (decide (i = j)) as [<-|Hne].
        { rewrite list_lookup_insert_eq in Hq by done. discriminate. }
        rewrite list_lookup_insert_ne in Hq by done. by apply (T5 j t).
    + intros j c H. apply elem_of_cons in H as [H|H]; [discriminate|].
      apply elem_of_cons. right. by apply T6.
  - (* Trying t 0 *)
    injection Hs as <-. unfold set_proc.
    apply (tokens_ok_update s i (Trying t 0) _ []); tok_side.
  - (* Trying t (S n): the lock script *)
    destruct (send s i (EvalLock k t rt)) as [r s1] eqn:He.
    destruct (Hsend _ _ _ He) as [st' ->].
    destruct r as [z|m]; [case_bool_decide|]; injection Hs as <-; unfold set_proc; simpl;
      apply (tokens_ok_update s i (Trying t (S n)) _ [EvalLock k t rt]); tok_side.
  - injection Hs as <-. unfold set_proc.
    apply (tokens_ok_update s i (InBody t) _ []); tok_side.
  - injection Hs as <-.
    apply (tokens_ok_update s i (BodyRead t v) _ []); tok_side.
  - (* Releasing: the unlock script *)
    destruct (send s i (EvalUnlock k t)) as [rep s1] eqn:He.
    destruct (Hsend _ _ _ He) as [st' ->].
    destruct rep as [z|m]; [case_bool_decide; [destruct (ignoreUnlockFail opts)|]|];
      injection Hs as <-; unfold set_proc; simpl;
      apply (tokens_ok_update s i (Releasing t r) _ [EvalUnlock k t]); tok_side.
  - discriminate.
  - discriminate.
Qed.

Lemma step_tokens_ok opts k rt s l s' :
  tokens_ok s -> step opts k rt s l = Some s' -> tokens_ok s'.
Proof.
  intros Hok Hs. destruct l as [|i|i b m]; simpl in Hs.
  - injection Hs as <-. destruct Hok as (T1 & T2 & T3 & T4 & T5 & T6). by repeat split.
  - destruct (procs s !! i) as [p|] eqn:Hp; simpl in Hs; [|discriminate].
    apply (proc_step_tokens_ok opts k rt issue s i p); [|done..].
    intros c r s1 H. apply issue_send in H as (st' & -> & _). by eexists.
  - destruct (procs s !! i) as [p|] eqn:Hp; simpl in Hs; [|discriminate].
    destruct (sends_command p); [|discriminate].
    apply (proc_step_tokens_ok opts k rt (issue_rejected b m) s i p); [|done..].
    intros c r s1 H. apply issue_rejected_send in H as (st' & -> & _). by eexists.
Qed.

Lemma run_tokens_ok opts k rt ls : forall s s',
  tokens_ok s -> run opts k rt s ls = Some s' -> tokens_ok s'.
Proof.
  induction ls as [|l ls IH]; intros s s' Hok Hrun; simpl in Hrun.
  - by injection Hrun as <-.
  - destruct (step opts k rt s l) as [s1|] eqn:Hs; simpl in Hrun; [|discriminate].
    apply (IH s1); [|done]. by apply (step_tokens_ok opts k rt s l).
Qed.
End TokenFacts.

Section ChainClaims.
Import MurLockService Interleaving ChainInv.

(** C9: in any interleaving of call chains running [runWithLock] on the
    same key, each chain mints its client id once, at its start, with
    [generateUuid]; every command a chain sends (the acquire script and
    the release script alike) carries that one id, so its release uses
    the token of its acquire; and no two chains ever hold the same id. *)
Theorem chains_tokens opts k rt N ls s :
  run opts k rt (init N) ls = Some s ->
  (forall i c c', (i, Issued c) ∈ log s -> (i, Issued c') ∈ log s ->
                  command_clientId c = command_clientId c') /\
  (forall i j c c', (i, Issued c) ∈ log s -> (j, Issued c') ∈ log s ->
                    command_clientId c = command_clientId c' -> i = j) /\
  (forall i c, (i, Issued c) ∈ log s -> (i, Minted (command_clientId c)) ∈ log s) /\
  (forall i t t', (i, Minted t) ∈ log s -> (i, Minted t') ∈ log s -> t = t') /\
  (forall i j t, (i, Minted t) ∈ log s -> (j, Minted t) ∈ log s -> i = j) /\
  (forall i t, (i, Minted t) ∈ log s -> exists n, n < uuids s /\ t = uuid_string n) /\
  (forall i p t, procs s !! i = Some p -> clientId_of p = Some t -> (i, Minted t) ∈ log s).
Proof.
  intros Hrun.
  destruct (run_tokens_ok opts k rt ls (init N) s (tokens_ok_init N) Hrun)
    as (T1 & T2 & T3 & T4 & T5 & T6).
  split; [|split; [|split]]; [| | done | by split_and!].
  - intros i c c' H H'. by apply (T3 i); apply T6.
  - intros i j c c' H H' Heq. apply (T2 i j (command_clientId c)); [by apply T6|].
    rewrite Heq. by apply T6.
Qed.

Lemma chains_tokens_witness :
  let ls := [Run 0; Run 1; Run 0; Run 1; Run 0; Run 0; Run 0; Run 1; Run 1; Run 1; Run 1] in
  let s := match run (mkOptions 50 3 true) "k1" 3000 (init 2) ls with
           | Some s => s | None => init 0 end in
  run (mkOptions 50 3 true) "k1" 3000 (init 2) ls = Some s /\
  (forall i c c', (i, Issued c) ∈ log s -> (i, Issued c') ∈ log s ->
                  command_clientId c = command_clientId c').
Proof.
  intros ls s.
  assert (H : run (mkOptions 50 3 true) "k1" 3000 (init 2) ls = Some s) by (vm_compute; reflexivity).
  split; [exact H|].
  exact (proj1 (chains_tokens (mkOptions 50 3 true) "k1" 3000 2 ls s H)).
Defined.
End ChainClaims.

Section LockFacts.
Import MurLockService Interleaving ChainInv.

(** What the acquire script can do to the lock record. *)
Lemma eval_lock_cases st now k t ms r st' :
  eval_on st now (EvalLock k t ms) = (r, st') ->
  (r = Int 1 /\ Redis.get st' now k = Some t /\
     (Redis.get st now k = None \/ Redis.get st now k = Some t)) \/
  (r <> Int 1 /\ st' = st).
Proof.
  simpl. unfold Redis.lock_script, Redis.set_nx_px.
  case_bool_decide as Hsame.
  { intros [= <- <-]. left. by repeat split; [| right]. }
  case_bool_decide as Hms.
  { intros [= <- <-]. by right. }
  destruct (Redis.get st now k) as [o|] eqn:Hg.
  - intros [= <- <-]. by right.
  - intros [= <- <-]. left. split; [done|]. split; [|by left].
    apply get_insert_live. lia.
Qed.

Lemma eval_unlock_held st now k t :
  Redis.get st now k = Some t ->
  eval_on st now (EvalUnlock k t) = (Int 1, delete k st).
Proof.
  intros Hg. simpl. unfold Redis.unlock_script, Redis.del.
  rewrite bool_decide_true by done. by rewrite Hg.
Qed.

(** The key space after an acquire script that was answered, or
    rejected by the client before or after the server ran it. *)
Lemma lock_store_cases st now k t ms r st' :
  ((r, st') = eval_on st now (EvalLock k t ms) \/
   (exists m, r = Rejected m) /\ (st' = st \/ st' = snd (eval_on st now (EvalLock k t ms)))) ->
  (st' = st \/ (Redis.get st' now k = Some t /\
                (Redis.get st now k = None \/ Redis.get st now k = Some t))) /\
  (r = Int 1 -> Redis.get st' now k = Some t).
Proof.
  intros [He | ([m ->] & Hst)].
  - symmetry in He. apply eval_lock_cases in He as [(-> & Hg & Hold) | (Hne & ->)].
    + split; [by right|done].
    + split; [by left|done].
  - split; [|discriminate].
    destruct Hst as [-> | ->]; [by left|].
    destruct (eval_on st now (EvalLock k t ms)) as [r0 st0] eqn:E. simpl.
    apply eval_lock_cases in E as [(_ & Hg & Hold) | (_ & ->)]; [by right|by left].
Qed.

Lemma holder_clientId p t : holder_of p = Some t -> clientId_of p = Some t.
Proof. by destruct p; simpl. Qed.

(** Two chains that both sit between acquire and release are one chain. *)
Lemma lock_ok_exclusive k s i j p q t t' :
  tokens_ok s -> lock_ok k s ->
  procs s !! i = Some p -> holder_of p = Some t ->
  procs s !! j = Some q -> holder_of q = Some t' -> i = j.
Proof.
  intros (T1 & T2 & T3 & T4 & T5 & T6) (L1 & _ & _) Hp Ht Hq Ht'.
  pose proof (L1 _ _ _ Hp Ht) as Hg. rewrite (L1 _ _ _ Hq Ht') in Hg.
  injection Hg as ->.
  apply (T2 i j t); [apply (T4 i p) | apply (T4 j q)]; by try apply holder_clientId.
Qed.

Lemma release_failures_insert (l : list pstate) i p p' :
  l !! i = Some p ->
  release_failures (<[i := p']> l) + (if release_failed p then 1 else 0)
    = release_failures l + (if release_failed p' then 1 else 0).
Proof.
  revert i. induction l as [|a l IH]; intros [|i] H; try discriminate; simpl in *.
  - injection H as ->. lia.
  - specialize (IH i H). lia.
Qed.

(** A chain changes state without changing the counter, keeping its
    value and whether its release failed; the holders own the record of
    the new key space. *)
Lemma lock_ok_update_gen k s i p p' st u lg :
  lock_ok k s -> procs s !! i = Some p ->
  value_of p' = value_of p -> release_failed p' = release_failed p ->
  (forall t v, p' = BodyRead t v -> v = counter s) ->
  (forall j q t, <[i := p']> (procs s) !! j = Some q -> holder_of q = Some t ->
                 Redis.get st (now s) k = Some t) ->
  lock_ok k (mkState st (now s) (counter s) u (<[i := p']> (procs s)) lg).
Proof.
  intros (L1 & (lost & Hlen & Hperm) & L3) Hp Hv Hr Hb Hh.
  assert (Hlt : i < length (procs s)) by (by eapply lookup_lt_Some).
  unfold lock_ok. simpl. split; [exact Hh|]. split.
  - exists lost. split.
    + pose proof (release_failures_insert (procs s) i p p' Hp) as E. rewrite Hr in E. lia.
    + unfold results in *. simpl. by rewrite (omap_insert_same value_of _ i p p').
  - intros j t v Hq. destruct (decide (i = j)) as [<-|Hne].
    + rewrite list_lookup_insert_eq in Hq by done. injection Hq as ->. by apply (Hb t v).
    + rewrite list_lookup_insert_ne in Hq by done. by apply (L3 j t).
Qed.

(** The same, with the key space unchanged and the chain keeping its
    holder. *)
Lemma lock_ok_update k s i p p' u lg :
  lock_ok k s -> procs s !! i = Some p ->
  holder_of p' = holder_of p -> value_of p' = value_of p ->
  release_failed p' = release_failed p ->
  (forall t v, p' = BodyRead t v -> v = counter s) ->
  lock_ok k (mkState (store s) (now s) (counter s) u (<[i := p']> (procs s)) lg).
Proof.
  intros Hok Hp Hh Hv Hr Hb. apply (lock_ok_update_gen k s i p); try done.
  intros j q t Hq Ht. destruct Hok as (L1 & _ & _).
  destruct (decide (i = j)) as [<-|Hne].
  - rewrite list_lookup_insert_eq in Hq by (by eapply lookup_lt_Some). injection Hq as <-.
    rewrite Hh in Ht. by apply (L1 i p).
  - rewrite list_lookup_insert_ne in Hq by done. by apply (L1 j q).
Qed.

(** When a holder leaves its critical section, no chain is left in one. *)
Lemma no_other_holder k s i p p' t :
  tokens_ok s -> lock_ok k s -> procs s !! i = Some p -> holder_of p = Some t ->
  holder_of p' = None ->
  forall j q t', <[i := p']> (procs s) !! j = Some q -> holder_of q = Some t' -> False.
Proof.
  intros Htok Hok Hp Ht Hp' j q t' Hq Hq'.
  destruct (decide (i = j)) as [<-|Hne].
  - rewrite list_lookup_insert_eq in Hq by (by eapply lookup_lt_Some). injection Hq as <-.
    congruence.
  - rewrite list_lookup_insert_ne in Hq by done. apply Hne.
    by apply (lock_ok_exclusive k s i j p q t t').
Qed.
End LockFacts.

Section LockStep.
Import MurLockService Interleaving ChainInv.

Lemma seq_S_perm c : seq 1 (S c) ≡ₚ S c :: seq 1 c.
Proof. rewrite seq_S. symmetry. apply Permutation_cons_append. Qed.

Lemma lock_ok_init k N : lock_ok k (init N).
Proof.
  unfold lock_ok. simpl. split; [|split].
  - intros i p t Hp. apply lookup_replicate in Hp as [-> _]. discriminate.
  - exists []. split.
    + simpl. induction N as [|N IH]; simpl; [done|exact IH].
    + unfold results. simpl. rewrite app_nil_r. induction N as [|N IH]; [done|]. exact IH.
  - intros i t v Hp. apply lookup_replicate in Hp as [Hp _]. discriminate.
Qed.

Lemma step_kept_step opts k rt s l s' :
  step_kept opts k rt s l = Some s' -> step opts k rt s l = Some s'.
Proof. destruct l; simpl; try congruence. destruct (lease_kept k s); congruence. Qed.

Lemma proc_step_lock_ok opts k rt send s i p s' :
  (forall c r s1, send s i c = (r, s1) ->
     exists st', s1 = mkState st' (now s) (counter s) (uuids s) (procs s) ((i, Issued c) :: log s) /\
       ((r, st') = eval_on (store s) (now s) c \/
        (exists m, r = Rejected m) /\ (st' = store s \/ st' = snd (eval_on (store s) (now s) c)))) ->
  tokens_ok s -> lock_ok k s -> procs s !! i = Some p ->
  proc_step opts k rt send s i p = Some s' -> lock_ok k s'.
Proof.
  intros Hsend Htok Hok Hp Hs.
  assert (Hlt : i < length (procs s)) by (by eapply lookup_lt_Some).
  destruct p as [|t [|n]|t|t v|t r|r|e]; simpl in Hs.
  - injection Hs as <-. by apply (lock_ok_update k s i Idle).
  - injection Hs as <-. by apply (lock_ok_update k s i (Trying t 0)).
  - (* Trying t (S n): the acquire script *)
    destruct (send s i (EvalLock k t rt)) as [r s1] eqn:He.
    destruct (Hsend _ _ _ He) as (st' & -> & Hc).
    apply lock_store_cases in Hc as [Hst Hr1].
    assert (Hother : forall j q t', j <> i -> procs s !! j = Some q -> holder_of q = Some t' ->
                                    Redis.get st' (now s) k = Some t').
    { intros j q t' Hne Hq Ht'. destruct Hok as (L1 & _ & _).
      pose proof (L1 j q t' Hq Ht') as Hg.
      destruct Hst as [->|(Hg' & [Hold|Hold])]; congruence. }
    destruct r as [z|m]; [case_bool_decide as Hz|]; injection Hs as <-; unfold set_proc; simpl;
      apply (lock_ok_update_gen k s i (Trying t (S n))); try done;
      intros j q t' Hq Ht'; (destruct (decide (i = j)) as [<-|Hne];
        [rewrite list_lookup_insert_eq in Hq by done; injection Hq as <-
        |rewrite list_lookup_insert_ne in Hq by done; by apply (Hother j q)]);
      try discriminate.
    injection Ht' as <-. apply Hr1. by subst.
  - (* InBody t: the counter is read *)
    injection Hs as <-. apply (lock_ok_update k s i (InBody t)); try done.
    intros t' v [= _ ->]. done.
  - (* BodyRead t v: the counter is incremented *)
    injection Hs as <-. pose proof Hok as (L1 & (lost & Hlen & Hperm) & L3).
    pose proof (L3 i t v Hp) as ->.
    unfold lock_ok. simpl. split; [|split].
    + intros j q t' Hq Ht'. destruct (decide (i = j)) as [<-|Hij].
      * rewrite list_lookup_insert_eq in Hq by done. injection Hq as <-.
        injection Ht' as <-. by apply (L1 i (BodyRead t (counter s))).
      * rewrite list_lookup_insert_ne in Hq by done. by apply (L1 j q).
    + exists lost. split.
      * pose proof (release_failures_insert (procs s) i _ (Releasing t (S (counter s))) Hp) as E.
        simpl in E. lia.
      * unfold results in *. simpl.
        rewrite (omap_insert_new value_of _ i (BodyRead t (counter s)) _ (S (counter s))) by done.
        simpl. etrans; [|symmetry; apply seq_S_perm]. by apply perm_skip.
    + intros j t' v' Hq. destruct (decide (i = j)) as [<-|Hij].
      * rewrite list_lookup_insert_eq in Hq by done. discriminate.
      * rewrite list_lookup_insert_ne in Hq by done.
        destruct Hij. by apply (lock_ok_exclusive k s i j (BodyRead t (counter s))
                                  (BodyRead t' v') t t').
  - (* Releasing t r: the release script *)
    pose proof Hok as (L1 & (lost & Hlen & Hperm) & L3).
    pose proof (L1 i _ t Hp eq_refl) as Hg.
    destruct (send s i (EvalUnlock k t)) as [rep s1] eqn:He.
    destruct (Hsend _ _ _ He) as (st' & -> & Hc).
    rewrite (eval_unlock_held _ _ _ _ Hg) in Hc.
    assert (Hno : forall p', holder_of p' = None ->
              forall j q t', <[i := p']> (procs s) !! j = Some q -> holder_of q = Some t' -> False)
      by (intros p' Hp'; by apply (no_other_holder k s i (Releasing t r) p' t)).
    destruct Hc as [Hc | ([m ->] & _)].
    + (* answered: the record is deleted and the value returned *)
      injection Hc as -> ->. simpl in Hs. try rewrite bool_decide_false in Hs by lia.
      injection Hs as <-. unfold set_proc. simpl.
      apply (lock_ok_update_gen k s i (Releasing t r)); try done.
      intros j q t' Hq Ht'. by destruct (Hno (Returned r) eq_refl j q t' Hq Ht').
    + (* rejected: the value is lost *)
      simpl in Hs. injection Hs as <-. unfold set_proc. simpl.
      unfold lock_ok. simpl. split; [|split].
      * intros j q t' Hq Ht'.
        destruct (Hno (Raised (MurLockException (ReleaseFailed k (RedisError m)))) eq_refl
                    j q t' Hq Ht').
      * exists (r :: lost). split.
        -- pose proof (release_failures_insert (procs s) i _
                         (Raised (MurLockException (ReleaseFailed k (RedisError m)))) Hp) as E.
           simpl in E. simpl. lia.
        -- unfold results in *. simpl.
           set (l' := <[i := Raised (MurLockException (ReleaseFailed k (RedisError m)))]> (procs s)).
           assert (E : r :: omap value_of l' ≡ₚ omap value_of (procs s)).
           { etrans; [symmetry; apply (omap_insert_new value_of l' i
                        (Raised (MurLockException (ReleaseFailed k (RedisError m))))
                        (Releasing t r) r)|].
             - unfold l'. by rewrite list_lookup_insert_eq.
             - done.
             - done.
             - unfold l'. rewrite list_insert_insert_eq. by rewrite list_insert_id. }
           etrans; [symmetry; apply Permutation_middle|].
           etrans; [apply (Permutation_app_tail lost E)|exact Hperm].
      * intros j t' v' Hq. destruct (decide (i = j)) as [<-|Hij].
        -- rewrite list_lookup_insert_eq in Hq by done. discriminate.
        -- rewrite list_lookup_insert_ne in Hq by done. by apply (L3 j t').
  - discriminate.
  - discriminate.
Qed.

Lemma step_lock_ok opts k rt s l s' :
  tokens_ok s -> lock_ok k s -> step_kept opts k rt s l = Some s' -> lock_ok k s'.
Proof.
  intros Htok Hok Hs. destruct l as [|i|i b m]; simpl in Hs.
  - (* Tick: no holder's lease runs out *)
    destruct (lease_kept k s) eqn:Hkept; [|discriminate]. injection Hs as <-.
    unfold lease_kept in Hkept. rewrite forallb_forall in Hkept.
    destruct Hok as (L1 & L2 & L3). unfold lock_ok. simpl. split; [|split; [exact L2|exact L3]].
    intros i p t Hp Ht.
    specialize (Hkept p (proj1 (list_elem_of_In _ _) (list_elem_of_lookup_2 _ _ _ Hp))).
    rewrite Ht in Hkept. by apply bool_decide_eq_true in Hkept.
  - destruct (procs s !! i) as [p|] eqn:Hp; simpl in Hs; [|discriminate].
    apply (proc_step_lock_ok opts k rt issue s i p); [|done..].
    intros c r s1. apply issue_send.
  - destruct (procs s !! i) as [p|] eqn:Hp; simpl in Hs; [|discriminate].
    destruct (sends_command p); [|discriminate].
    apply (proc_step_lock_ok opts k rt (issue_rejected b m) s i p); [|done..].
    intros c r s1. apply issue_rejected_send.
Qed.
End LockStep.

Section LockRun.
Import MurLockService Interleaving ChainInv.

Lemma proc_step_length opts k rt send s i p s' :
  (forall c r s1, send s i c = (r, s1) ->
     exists st', s1 = mkState st' (now s) (counter s) (uuids s) (procs s) ((i, Issued c) :: log s)) ->
  proc_step opts k rt send s i p = Some s' -> length (procs s') = length (procs s).
Proof.
  intros Hsend Hs.
  destruct p as [|t [|n]|t|t v|t r|r|e]; simpl in Hs; try discriminate.
  - injection Hs as <-. simpl. by rewrite length_insert.
  - injection Hs as <-. simpl. by rewrite length_insert.
  - destruct (send s i (EvalLock k t rt)) as [r s1] eqn:He.
    destruct (Hsend _ _ _ He) as [st' ->].
    destruct r as [z|m]; [case_bool_decide|]; injection Hs as <-; simpl; by rewrite length_insert.
  - injection Hs as <-. simpl. by rewrite length_insert.
  - injection Hs as <-. simpl. by rewrite length_insert.
  - destruct (send s i (EvalUnlock k t)) as [rep s1] eqn:He.
    destruct (Hsend _ _ _ He) as [st' ->].
    destruct rep as [z|m]; [case_bool_decide; [destruct (ignoreUnlockFail opts)|]|];
      injection Hs as <-; simpl; by rewrite length_insert.
Qed.

Lemma step_length opts k rt s l s' :
  step opts k rt s l = Some s' -> length (procs s') = length (procs s).
Proof.
  intros Hs. destruct l as [|i|i b m]; simpl in Hs; [by injection Hs as <-| |].
  - destruct (procs s !! i) as [p|]; simpl in Hs; [|discriminate].
    apply (proc_step_length opts k rt issue s i p); [|done].
    intros c r s1 H. apply issue_send in H as (st' & -> & _). by eexists.
  - destruct (procs s !! i) as [p|]; simpl in Hs; [|discriminate].
    destruct (sends_command p); [|discriminate].
    apply (proc_step_length opts k rt (issue_rejected b m) s i p); [|done].
    intros c r s1 H. apply issue_rejected_send in H as (st' & -> & _). by eexists.
Qed.

Lemma run_kept_inv opts k rt ls : forall s s',
  tokens_ok s -> lock_ok k s -> run_kept opts k rt s ls = Some s' ->
  tokens_ok s' /\ lock_ok k s' /\ length (procs s') = length (procs s).
Proof.
  induction ls as [|l ls IH]; intros s s' Htok Hok Hrun; simpl in Hrun.
  - by injection Hrun as <-.
  - destruct (step_kept opts k rt s l) as [s1|] eqn:Hs; simpl in Hrun; [|discriminate].
    pose proof (step_kept_step _ _ _ _ _ _ Hs) as Hs'.
    destruct (IH s1 s') as (? & ? & Hlen); try done.
    + by apply (step_tokens_ok opts k rt s l).
    + by apply (step_lock_ok opts k rt s l).
    + split_and!; [done | done | rewrite Hlen; by apply (step_length opts k rt s l)].
Qed.

Lemma results_all_returned (l : list pstate) :
  Forall (fun p => exists r, p = Returned r) l -> length (omap value_of l) = length l.
Proof.
  induction 1 as [|p l [r ->] _ IH]; [done|]. simpl. by f_equal.
Qed.

Lemma release_failures_returned (l : list pstate) :
  Forall (fun p => exists r, p = Returned r) l -> release_failures l = 0.
Proof. induction 1 as [|p l [r ->] _ IH]; [done|]. simpl. exact IH. Qed.
End LockRun.

Section LockClaims.
Import MurLockService Interleaving ChainInv.

(** C1 (counterexample): two chains on key "k1". With maxAttempts 1,
    the second chain gives up while the first holds the lock and raises
    instead of returning a value, so only one value comes back. With a
    release time of 2 ms and a body that outlasts it, the record expires
    while the first chain is in its body: both chains are in their
    bodies at once, both read 0 and both return 1. And with leases kept,
    when the client rejects the first chain's release after the server
    has deleted the record, that chain raises [Failed to release lock
    for key k1: ...] and its value 1 is lost: the second chain returns
    2, the only value returned. *)
Lemma mutual_exclusion_unbounded_fails :
  option_map procs (run (mkOptions 50 1 false) "k1" 3000 (init 2)
    [Run 0; Run 1; Run 0; Run 1; Run 1; Run 0; Run 0; Run 0])
    = Some [Returned 1; Raised (MurLockException (AcquireFailed "k1"
                                 (MurLockException (ObtainFailedAfter "k1" 1))))] /\
  option_map procs (run (mkOptions 50 3 true) "k1" 2 (init 2)
    [Run 0; Run 1; Run 0; Run 0; Tick; Tick; Tick; Run 1; Run 1])
    = Some [BodyRead (uuid_string 0) 0; BodyRead (uuid_string 1) 0] /\
  option_map results (run (mkOptions 50 3 true) "k1" 2 (init 2)
    [Run 0; Run 1; Run 0; Run 0; Tick; Tick; Tick; Run 1; Run 1; Run 1; Run 0; Run 1; Run 0])
    = Some [1; 1] /\
  option_map (fun s => (procs s, results s, counter s))
    (run_kept (mkOptions 50 3 false) "k1" 3000 (init 2)
       [Run 0; Run 0; Run 0; Run 0; Reject 0 true "Socket closed unexpectedly";
        Run 1; Run 1; Run 1; Run 1; Run 1])
    = Some ([Raised (MurLockException (ReleaseFailed "k1" (RedisError "Socket closed unexpectedly")));
             Returned 2], [2], 2).
Proof. split_and!; vm_compute; reflexivity. Qed.

(** C1 (amended): as long as no holder's lock record expires before it
    releases it ([run_kept]), at most one of N chains is between a
    successful acquire and its release at any time, and that chain owns
    the live record of the key. The values the bodies have returned so
    far and that are still held are pairwise distinct and lie in
    [1 .. counter]; the counter is their number plus the number of
    chains whose release failed (the client rejected the release
    script), so without a failed release they are exactly
    [1 .. counter]. Once every chain has returned (none gave up, none
    failed), the N values, sorted, are exactly 1..N. *)
Theorem mutual_exclusion_kept opts k rt N ls s :
  run_kept opts k rt (init N) ls = Some s ->
  (forall i j p q, procs s !! i = Some p -> procs s !! j = Some q ->
                   is_Some (holder_of p) -> is_Some (holder_of q) -> i = j) /\
  (forall i p t, procs s !! i = Some p -> holder_of p = Some t ->
                 Redis.get (store s) (now s) k = Some t) /\
  NoDup (results s) /\
  (forall v, v ∈ results s -> 1 <= v <= counter s) /\
  counter s = length (results s) + release_failures (procs s) /\
  (release_failures (procs s) = 0 -> results s ≡ₚ seq 1 (counter s)) /\
  (Forall (fun p => exists r, p = Returned r) (procs s) -> results s ≡ₚ seq 1 N).
Proof.
  intros Hrun.
  destruct (run_kept_inv opts k rt ls (init N) s (tokens_ok_init N) (lock_ok_init k N) Hrun)
    as (Htok & Hok & Hlen).
  pose proof Hok as (L1 & (lost & Hlost & Hperm) & L3).
  assert (Hnd : NoDup (results s ++ lost)).
  { rewrite Hperm. apply NoDup_seq. }
  assert (Hc : counter s = length (results s) + release_failures (procs s)).
  { pose proof (Permutation_length Hperm) as Hl. rewrite length_app, length_seq in Hl. lia. }
  split_and!.
  - intros i j p q Hp Hq [t Ht] [t' Ht'].
    by apply (lock_ok_exclusive k s i j p q t t').
  - done.
  - by apply NoDup_app in Hnd as (? & _ & _).
  - intros v Hv. assert (Hv' : v ∈ seq 1 (counter s)).
    { rewrite <- Hperm. apply elem_of_app. by left. }
    apply elem_of_seq in Hv'. lia.
  - done.
  - intros H0. rewrite H0 in Hlost. apply nil_length_inv in Hlost. subst lost.
    by rewrite app_nil_r in Hperm.
  - intros Hall. pose proof (release_failures_returned _ Hall) as H0.
    rewrite H0 in Hlost. apply nil_length_inv in Hlost. subst lost.
    rewrite app_nil_r in Hperm. rewrite Hperm.
    assert (HN : counter s = N).
    { rewrite Hc, H0. unfold results. rewrite (results_all_returned _ Hall), Hlen.
      simpl. rewrite length_replicate. lia. }
    by rewrite HN.
Qed.

Lemma mutual_exclusion_kept_witness :
  let ls := [Run 0; Run 1; Run 0; Run 1; Run 0; Run 0; Run 0; Run 1; Run 1; Run 1; Run 1] in
  let s := match run_kept (mkOptions 50 3 true) "k1" 3000 (init 2) ls with
           | Some s => s | None => init 0 end in
  run_kept (mkOptions 50 3 true) "k1" 3000 (init 2) ls = Some s /\
  Forall (fun p => exists r, p = Returned r) (procs s) /\
  results s ≡ₚ seq 1 2.
Proof.
  intros ls s.
  assert (H : run_kept (mkOptions 50 3 true) "k1" 3000 (init 2) ls = Some s)
    by (vm_compute; reflexivity).
  assert (Hall : Forall (fun p => exists r, p = Returned r) (procs s)).
  { vm_compute. repeat constructor; eexists; reflexivity. }
  split; [exact H|]. split; [exact Hall|].
  destruct (mutual_exclusion_kept (mkOptions 50 3 true) "k1" 3000 2 ls s H)
    as (_ & _ & _ & _ & _ & _ & Hfin).
  exact (Hfin Hall).
Defined.
End LockClaims.

(** * Further properties of the code *)

(** ** The lock engine, one call chain *)

Section EngineFacts.
Import MurLockService Observe AcquireObs.

(** The back-off after the failed attempt number [j + 1]: the retry
    number handed to a wait function, or multiplying [options.wait], is
    [j + 1]. *)
Lemma backoff_delay_retry opts cw j :
  j < maxAttempts opts ->
  backoff_delay opts cw (maxAttempts opts - j)
    = match cw with
      | WaitFunction g => g (Z.of_nat (S j))
      | WaitNumber ms => if bool_decide (ms = 0%Z) then (wait opts * Z.of_nat (S j))%Z else ms
      | WaitUndefined => (wait opts * Z.of_nat (S j))%Z
      end.
Proof.
  intros Hj. unfold backoff_delay.
  replace (Z.of_nat (maxAttempts opts) - Z.of_nat (maxAttempts opts - j) + 1)%Z
    with (Z.of_nat (S j)) by lia.
  by destruct cw.
Qed.

Lemma failed_attempts_seq opts k rt ct cw f : forall a,
  a + f <= maxAttempts opts ->
  failed_attempts opts k rt ct cw (maxAttempts opts - a) f
    = flat_map (fun j => [Sent (EvalLock k ct rt);
                          Slept (backoff_delay opts cw (maxAttempts opts - j))]) (seq a f).
Proof.
  induction f as [|f IH]; intros a Ha; [done|].
  simpl. replace (pred (maxAttempts opts - a)) with (maxAttempts opts - S a) by lia.
  rewrite IH by lia. done.
Qed.

(** The [try] block of an attempt never completes with [return false]. *)
Lemma attempt_try_true opts k rt ct cw n w b w' :
  attempt_try opts k rt ct cw n w = (inr (ReturnValue b), w') -> b = true.
Proof.
  unfold attempt_try, mbind, M_bind, bind, sendCommand.
  destruct (redis w (sent w) (EvalLock k ct rt)) as [z|m]; [|discriminate].
  case_bool_decide; cbn; unfold ret; congruence.
Qed.

Lemma attemptLock_true opts k rt ct cw n : forall w b w',
  attemptLock opts k rt ct cw n w = (inr b, w') -> b = true.
Proof.
  induction n as [|n IH]; intros w b w' H; [discriminate|].
  revert H. cbn [attemptLock]. unfold mbind, M_bind, bind, try_catch.
  destruct (attempt_try opts k rt ct cw (S n) w) as [[e|c] w1] eqn:Ht; [discriminate|].
  destruct c as [b0|].
  - intros [= -> _]. by apply (attempt_try_true opts k rt ct cw (S n) w b w1).
  - apply IH.
Qed.

Lemma attempt_try_events opts k rt ct cw n w r w' :
  attempt_try opts k rt ct cw n w = (r, w') ->
  redis w' = redis w /\ context w' = context w /\ uuids w' = uuids w /\
  exists evs, trace w' = trace w ++ evs /\ acquire_events k ct rt evs.
Proof.
  unfold attempt_try, mbind, M_bind, bind, sendCommand.
  destruct (redis w (sent w) (EvalLock k ct rt)) as [z|m].
  - case_bool_decide; cbn; unfold ret; intros [= <- <-]; cbn; split_and!; try done.
    + eexists. split; [done|]. by repeat constructor.
    + eexists. rewrite <- app_assoc. split; [done|]. unfold acquire_events; simpl.
      constructor; [by left|]. constructor; [right; by eexists|]. constructor.
  - intros [= <- <-]; cbn. split_and!; try done.
    eexists. split; [done|]. by repeat constructor.
Qed.

Lemma attemptLock_events opts k rt ct cw n : forall w r w',
  attemptLock opts k rt ct cw n w = (r, w') ->
  redis w' = redis w /\ context w' = context w /\ uuids w' = uuids w /\
  exists evs, trace w' = trace w ++ evs /\ acquire_events k ct rt evs.
Proof.
  induction n as [|n IH]; intros w r w' H.
  { injection H as _ <-. split_and!; try done. exists [].
    split; [by rewrite app_nil_r | constructor]. }
  revert H. cbn [attemptLock]. unfold mbind, M_bind, bind, try_catch, throw.
  destruct (attempt_try opts k rt ct cw (S n) w) as [[e|c] w1] eqn:Ht;
    apply attempt_try_events in Ht as (Hr1 & Hc1 & Hu1 & evs1 & Htr1 & Hev1).
  - intros [= _ <-]. split_and!; try done. by exists evs1.
  - destruct c as [b|].
    + intros [= _ <-]. split_and!; try done. by exists evs1.
    + intros H. apply IH in H as (Hr2 & Hc2 & Hu2 & evs2 & Htr2 & Hev2).
      split_and!; try congruence. exists (evs1 ++ evs2).
      rewrite Htr2, Htr1, app_assoc. split; [done|]. by apply Forall_app.
Qed.

Lemma acquireLock_events opts k rt ct cw w r w' :
  acquireLock opts k rt ct cw w = (r, w') ->
  redis w' = redis w /\ context w' = context w /\ uuids w' = uuids w /\
  exists evs, trace w' = trace w ++ evs /\ acquire_events k ct rt evs.
Proof.
  unfold acquireLock, lock, mbind, M_bind, bind, try_catch, throw.
  destruct (attemptLock opts k rt ct cw (maxAttempts opts) w) as [[e|b] w1] eqn:Ha;
    apply attemptLock_events in Ha; [by intros [= _ <-]|].
  destruct b; cbn; by intros [= _ <-].
Qed.
End EngineFacts.

Lemma flat_map_seq_ext {A} (g h : nat -> list A) a f :
  (forall j, a <= j < a + f -> g j = h j) -> flat_map g (seq a f) = flat_map h (seq a f).
Proof.
  revert a. induction f as [|f IH]; intros a Hgh; [done|]. simpl.
  rewrite (Hgh a) by lia. f_equal. apply IH. intros j Hj. apply Hgh. lia.
Qed.

Section EngineExtras.
Import MurLockService Observe AcquireObs.

(** [lock] when the first [f] attempts are answered [0] and the next one
    [1] (with [f < maxAttempts]): it resolves [true] after [f + 1] lock
    commands; after the failed attempt number [j + 1] it slept
    [wait(j + 1)] for a wait function, the fixed wait when it is a
    non-zero number, and [options.wait * (j + 1)] otherwise. No sleep
    follows the successful attempt. *)
Theorem lock_granted_after opts k rt ct cw f w :
  f < maxAttempts opts ->
  (forall j, j < f -> redis w (sent w + j) (EvalLock k ct rt) = Int 0%Z) ->
  redis w (sent w + f) (EvalLock k ct rt) = Int 1%Z ->
  lock opts k rt ct cw w
    = (inr true,
       advance w (S f)
         (flat_map (fun j => [Sent (EvalLock k ct rt);
                              Slept (match cw with
                                     | WaitFunction g => g (Z.of_nat (S j))
                                     | WaitNumber ms =>
                                         if bool_decide (ms = 0%Z)
                                         then (wait opts * Z.of_nat (S j))%Z else ms
                                     | WaitUndefined => (wait opts * Z.of_nat (S j))%Z
                                     end)]) (seq 0 f)
          ++ [Sent (EvalLock k ct rt)])).
Proof.
  intros Hlt Hz H1. unfold lock.
  rewrite (attemptLock_failures opts k rt ct cw f (maxAttempts opts) w) by (lia || done).
  assert (Hseq : failed_attempts opts k rt ct cw (maxAttempts opts) f
    = flat_map (fun j => [Sent (EvalLock k ct rt);
                          Slept (backoff_delay opts cw (maxAttempts opts - j))]) (seq 0 f)).
  { rewrite <- (failed_attempts_seq opts k rt ct cw f 0) by lia. by rewrite Nat.sub_0_r. }
  destruct (maxAttempts opts - f) as [|r] eqn:Hr; [lia|].
  cbn [attemptLock]. unfold attempt_try.
  unfold mbind, M_bind, bind, try_catch, sendCommand.
  unfold advance at 1 2. cbn [redis sent]. rewrite H1. cbn. unfold ret.
  unfold advance. f_equal. f_equal; [lia|].
  rewrite <- app_assoc. f_equal. rewrite Hseq. f_equal.
  apply flat_map_seq_ext. intros j Hj. rewrite backoff_delay_retry by lia. done.
Qed.

Lemma lock_granted_after_witness :
  let w := fresh_world (fun j _ => if bool_decide (j = 2) then Int 1%Z else Int 0%Z) in
  lock (mkOptions 50 3 false) "k1" 3000 "tokenA" WaitUndefined w
    = (inr true,
       advance w 3 [Sent (EvalLock "k1" "tokenA" 3000); Slept 50;
                    Sent (EvalLock "k1" "tokenA" 3000); Slept 100;
                    Sent (EvalLock "k1" "tokenA" 3000)]).
Proof.
  intros w.
  exact (lock_granted_after (mkOptions 50 3 false) "k1" 3000 "tokenA" WaitUndefined 2 w
           ltac:(simpl; lia)
           (fun j Hj => ltac:(simpl; rewrite bool_decide_false by lia; reflexivity))
           eq_refl).
Defined.

(** [acquireLock] only ever fails with [Failed to acquire lock for key
    K: ...]: [lock] never resolves [false], so the branch [Could not
    obtain lock for key K] is never taken ([maxAttempts] a non-negative
    integer, see [options]). *)
Theorem acquireLock_failure_wrapped opts k rt ct cw w e w' :
  acquireLock opts k rt ct cw w = (inl e, w') ->
  exists cause, e = MurLockException (AcquireFailed k cause).
Proof.
  unfold acquireLock, lock, mbind, M_bind, bind, try_catch, throw.
  destruct (attemptLock opts k rt ct cw (maxAttempts opts) w) as [[e0|b] w1] eqn:Ha.
  - intros [= <- _]. by eexists.
  - apply attemptLock_true in Ha as ->. cbn. unfold ret. discriminate.
Qed.

Lemma acquireLock_failure_wrapped_witness :
  exists cause, MurLockException (AcquireFailed "k1" (MurLockException (ObtainFailedAfter "k1" 2)))
                = MurLockException (AcquireFailed "k1" cause).
Proof.
  apply (acquireLock_failure_wrapped (mkOptions 50 2 false) "k1" 3000 "tokenA" WaitUndefined
           (fresh_world held_by_other) _
           (snd (acquireLock (mkOptions 50 2 false) "k1" 3000 "tokenA" WaitUndefined
                   (fresh_world held_by_other)))).
  vm_compute. reflexivity.
Defined.
End EngineExtras.

Section ReleaseExtras.
Import MurLockService Observe AcquireObs.

(** [releaseLock] sends the release script once and fails only in two
    cases. When the client rejects the command, the error is wrapped as
    [Failed to release lock for key K: <client message>]. When the script
    answers 0 and [ignoreUnlockFail] is off, the error reads [Failed to
    release lock for key K: Failed to release lock for key K]. Any other
    answer, or 0 with [ignoreUnlockFail] set, is a success. *)
Theorem releaseLock_outcome opts k ct w :
  releaseLock opts k ct w
    = (match redis w (sent w) (EvalUnlock k ct) with
       | Int z =>
           if bool_decide (z = 0%Z) && negb (ignoreUnlockFail opts)
           then inl (MurLockException (ReleaseFailed k (MurLockException (ReleaseRefused k))))
           else inr tt
       | Rejected m => inl (MurLockException (ReleaseFailed k (RedisError m)))
       end,
       mkWorld (redis w) (S (sent w)) (trace w ++ [Sent (EvalUnlock k ct)]) (context w) (uuids w)).
Proof.
  unfold releaseLock, unlock, try_catch, mbind, M_bind, bind, sendCommand, throw.
  destruct (redis w (sent w) (EvalUnlock k ct)) as [z|m]; [|done].
  case_bool_decide; [destruct (ignoreUnlockFail opts)|]; done.
Qed.

(** When the acquisition fails ([maxAttempts] a non-negative integer,
    see [options]), [runWithLock] fails with the same error
    and leaves the world as the acquisition left it. The protected
    operation is not run and no release script is sent: the only
    commands are lock scripts with the call's client id, plus back-off
    sleeps. *)
Theorem runWithLock_acquire_failure {R} opts k rt cw (fn : M R) w e w1 :
  acquireLock opts k rt (uuid_string (uuids w)) cw (started w) = (inl e, w1) ->
  runWithLock opts k rt cw fn w = (inl e, w1) /\
  exists evs, trace w1 = trace w ++ evs /\ acquire_events k (uuid_string (uuids w)) rt evs.
Proof.
  intros Ha. split.
  - rewrite runWithLock_prelude. unfold mbind, M_bind, bind at 1. by rewrite Ha.
  - apply acquireLock_events in Ha as (_ & _ & _ & evs & Htr & Hev). by exists evs.
Qed.

Lemma runWithLock_acquire_failure_witness :
  fst (runWithLock (mkOptions 50 2 false) "k1" 3000 WaitUndefined (ret 7)
         (fresh_world held_by_other))
    = inl (MurLockException (AcquireFailed "k1" (MurLockException (ObtainFailedAfter "k1" 2)))).
Proof.
  destruct (acquireLock (mkOptions 50 2 false) "k1" 3000 (uuid_string 0) WaitUndefined
              (started (fresh_world held_by_other))) as [[e|u] w1] eqn:E.
  - rewrite (proj1 (runWithLock_acquire_failure (mkOptions 50 2 false) "k1" 3000 WaitUndefined
                      (ret 7) (fresh_world held_by_other) e w1 E)).
    vm_compute in E. injection E as <- _. reflexivity.
  - vm_compute in E. discriminate.
Defined.
End ReleaseExtras.

(** ** Logging *)

Section LoggingExtras.
Import Logging.

(** [logLevel: 'none'] does not silence the service: ['none'] is not in
    [levels], so its index is [-1], and every message passes the test
    [levels.indexOf(level) >= -1]. By contrast, ['warn'] lets through
    only the warnings and errors, and ['error'] only the errors. *)
Theorem log_none_emits_everything :
  (forall level, log_emits LNone level = true) /\
  (forall level, log_emits LWarn level = true <-> level = LWarn \/ level = LError) /\
  (forall level, log_emits LError level = true <-> level = LError).
Proof.
  split_and!; intros []; vm_compute; intuition discriminate.
Qed.
End LoggingExtras.

(** ** AsyncStorageManager *)

Section AlsExtras.
Context {T : Type}.

(** Outside a registered context every operation of the manager throws
    [AsyncStorageManagerException] and changes nothing. After
    [register()], a value [set] under a key is what [get] returns for it,
    other keys read [undefined], and the store holds one entry. Whatever
    the context held before [register()] is gone. *)
Theorem als_register_set_get (st : option (gmap string T)) (k k' : string) (v : T) :
  AsyncStorage.set None k v = (inl AsyncStorageManagerException, None) /\
  AsyncStorage.get (T:=T) None k = inl AsyncStorageManagerException /\
  AsyncStorage.delete (T:=T) None k = (inl AsyncStorageManagerException, None) /\
  AsyncStorage.has (T:=T) None k = inl AsyncStorageManagerException /\
  AsyncStorage.clear (T:=T) None = (inl AsyncStorageManagerException, None) /\
  AsyncStorage.size (T:=T) None = inl AsyncStorageManagerException /\
  AsyncStorage.get (AsyncStorage.register st) k = inr None /\
  AsyncStorage.get (snd (AsyncStorage.set (AsyncStorage.register st) k v)) k = inr (Some v) /\
  (k' <> k -> AsyncStorage.get (snd (AsyncStorage.set (AsyncStorage.register st) k v)) k' = inr None) /\
  AsyncStorage.size (snd (AsyncStorage.set (AsyncStorage.register st) k v)) = inr 1.
Proof.
  unfold AsyncStorage.set, AsyncStorage.get, AsyncStorage.delete, AsyncStorage.has,
    AsyncStorage.clear, AsyncStorage.size, AsyncStorage.getStore, AsyncStorage.register; simpl.
  split_and!; try done.
  - by rewrite lookup_insert_eq.
  - intros Hne. by rewrite lookup_insert_ne, lookup_empty by done.
  - by rewrite insert_empty, map_size_singleton.
Qed.

(** [delete(key)] in an active context answers what [has(key)] answered
    before, after it [has(key)] is false, every other key keeps its
    value, and the size drops by one exactly when the key was there. *)
Theorem als_delete_has (m : gmap string T) (k : string) :
  let '(r, st') := AsyncStorage.delete (Some m) k in
  r = AsyncStorage.has (Some m) k /\
  AsyncStorage.has st' k = inr false /\
  (forall k', k' <> k -> AsyncStorage.get st' k' = AsyncStorage.get (Some m) k') /\
  (exists n, AsyncStorage.size (Some m) = inr n /\
     AsyncStorage.size st' = inr (if bool_decide (is_Some (m !! k)) then pred n else n)).
Proof.
  unfold AsyncStorage.delete, AsyncStorage.has, AsyncStorage.get, AsyncStorage.size,
    AsyncStorage.getStore; simpl.
  split_and!; try done.
  - rewrite lookup_delete_eq. by rewrite bool_decide_false by (intros [? ?]; discriminate).
  - intros k' Hne. by rewrite lookup_delete_ne by done.
  - eexists. split; [done|]. f_equal.
    case_bool_decide as Hk.
    + destruct Hk as [v Hv]. by rewrite map_size_delete, Hv.
    + rewrite delete_id; [done|]. by apply eq_None_not_Some.
Qed.
End AlsExtras.

(** ** getParameterNames *)

Section ParamFacts.
Import ParamNames.

Lemma drop_ws_head s : drop_ws s = [] \/ exists c r, drop_ws s = c :: r /\ is_ws c = false.
Proof.
  induction s as [|c s IH]; simpl; [by left|].
  destruct (is_ws c) eqn:Hc; [done|]. right. by exists c, s.
Qed.

Lemma drop_ws_sub s a : a ∈ drop_ws s -> a ∈ s.
Proof.
  induction s as [|c s IH]; simpl; [done|].
  destruct (is_ws c); intros H; [apply elem_of_cons; right; by apply IH | done].
Qed.

Lemma trim_end_sub s a : a ∈ trim_end s -> a ∈ s.
Proof.
  induction s as [|c s IH]; simpl; [done|].
  destruct (is_ws c && bool_decide (trim_end s = [])); [by intros ?%elem_of_nil|].
  intros [->|H]%elem_of_cons; apply elem_of_cons; [by left | right; by apply IH].
Qed.

Lemma trim_end_head c s r : trim_end (c :: s) = r -> r = [] \/ exists r', r = c :: r'.
Proof.
  simpl. destruct (is_ws c && bool_decide (trim_end s = [])); intros <-; [by left|].
  right. by eexists.
Qed.

Lemma trim_end_last s c : last (trim_end s) = Some c -> is_ws c = false.
Proof.
  induction s as [|d s IH]; simpl; [done|].
  destruct (trim_end s) as [|e r] eqn:Hr.
  - rewrite bool_decide_true by done. destruct (is_ws d) eqn:Hd; simpl; [done|].
    by intros [= <-].
  - rewrite bool_decide_false by done. rewrite andb_false_r, last_cons_cons.
    intros H. by apply IH.
Qed.

Lemma trim_sub s a : a ∈ trim s -> a ∈ s.
Proof. unfold trim. intros H. by apply drop_ws_sub, trim_end_sub. Qed.

Lemma trim_head s c : head (trim s) = Some c -> is_ws c = false.
Proof.
  unfold trim. destruct (drop_ws_head s) as [->|(d & r & -> & Hd)]; [done|].
  destruct (trim_end_head d r (trim_end (d :: r)) eq_refl) as [->|[r' ->]]; [done|].
  by intros [= <-].
Qed.

Lemma trim_last s c : last (trim s) = Some c -> is_ws c = false.
Proof. apply trim_end_last. Qed.

Lemma split_first_sub sep s a : a ∈ split_first sep s -> a ∈ s /\ a <> sep.
Proof.
  induction s as [|c s IH]; simpl; [by intros ?%elem_of_nil|].
  destruct (decide (c = sep)) as [->|Hne]; [by intros ?%elem_of_nil|].
  intros [->|H]%elem_of_cons.
  - split; [by left | done].
  - destruct (IH H) as [H1 H2]. split; [by right | done].
Qed.

Lemma param_name_good current :
  param_name current <> [] -> good_name (param_name current).
Proof.
  unfold param_name. intros Hne. split_and!; [done| | | apply trim_head | apply trim_last].
  - intros H. apply trim_sub, split_first_sub in H as [H _].
    apply trim_sub, split_first_sub in H as [_ H]. done.
  - intros H. apply trim_sub, split_first_sub in H as [_ H]. done.
Qed.

Lemma push_name_good ps current :
  Forall good_name ps -> Forall good_name (push_name ps current).
Proof.
  unfold push_name. case_bool_decide; [done|]. intros Hps.
  apply Forall_app. split; [done|]. constructor; [by apply param_name_good | constructor].
Qed.

Lemma scan_step_good st prev c :
  Forall good_name (params st) -> Forall good_name (params (scan_step st prev c)).
Proof.
  intros H. unfold scan_step.
  repeat (case_match || case_bool_decide); simpl; try done; by apply push_name_good.
Qed.

Lemma scan_loop_good s : forall st prev,
  Forall good_name (params st) -> Forall good_name (params (scan_loop st prev s)).
Proof.
  induction s as [|c s IH]; intros st prev H; simpl; [done|].
  apply IH. by apply scan_step_good.
Qed.
End ParamFacts.

Section ParamExtras.
Import ParamNames.

(** Every name [getParameterNames] returns is non-empty, holds no [=]
    (a default value is cut off) and no [:] (a type annotation is cut
    off), and has no white space at either end. *)
Theorem getParameterNames_well_formed (src : jsstr) :
  Forall good_name (getParameterNames src).
Proof.
  unfold getParameterNames.
  case_bool_decide; [constructor|].
  case_bool_decide.
  - apply scan_loop_good. constructor.
  - apply push_name_good, scan_loop_good. constructor.
Qed.

Lemma strip_cons f c s :
  c <> "/"%char -> strip_comments (S f) (c :: s) = c :: strip_comments f s.
Proof.
  intros H. destruct c as [[] [] [] [] [] [] [] []]; try reflexivity.
  by destruct H.
Qed.

Lemma strip_app a t : forall f,
  ~ ("/"%char ∈ a) -> length a <= f ->
  strip_comments f (a ++ t) = a ++ strip_comments (f - length a) t.
Proof.
  induction a as [|c a IH]; intros f Hs Hf; simpl.
  - by rewrite Nat.sub_0_r.
  - destruct f as [|f]; [simpl in Hf; lia|].
    rewrite strip_cons by (intros ->; apply Hs; by left).
    rewrite IH; [done| |simpl in Hf; lia]. intros H. apply Hs. by right.
Qed.

Lemma indexOf_app_notin a t x :
  ~ (x ∈ a) -> indexOf (a ++ x :: t) x = Z.of_nat (length a).
Proof.
  induction a as [|c a IH]; intros Hx; simpl.
  - by rewrite decide_True.
  - rewrite decide_False by (intros ->; apply Hx; by left).
    rewrite IH by (intros H; apply Hx; by right).
    rewrite bool_decide_false by lia. lia.
Qed.

Lemma indexOf_app_in a t x :
  x ∈ a -> indexOf (a ++ t) x = indexOf a x /\ (0 <= indexOf a x < Z.of_nat (length a))%Z.
Proof.
  induction a as [|c a IH]; intros Hx; [by apply elem_of_nil in Hx|]. simpl.
  destruct (decide (c = x)) as [->|Hne]; [split; [done|lia]|].
  apply elem_of_cons in Hx as [->|Hx]; [done|].
  destruct (IH Hx) as [-> Hb]. rewrite bool_decide_false by lia. split; [done|lia].
Qed.

Lemma fnStr_cut a X :
  ~ ("/"%char ∈ a) ->
  strip_comments (length (a ++ ")"%char :: X)) (a ++ ")"%char :: X)
    = a ++ ")"%char :: strip_comments (length X) X.
Proof.
  intros Hs. rewrite strip_app; [|done|rewrite length_app; lia].
  rewrite length_app. simpl. replace (length a + S (length X) - length a) with (S (length X)) by lia.
  by rewrite strip_cons.
Qed.

Lemma slice_cut a Y :
  "("%char ∈ a -> ~ (")"%char ∈ a) ->
  slice (a ++ ")"%char :: Y) (indexOf (a ++ ")"%char :: Y) "("%char + 1)
        (indexOf (a ++ ")"%char :: Y) ")"%char)
    = drop (Z.to_nat (indexOf a "("%char + 1)) a.
Proof.
  intros Hin Hout.
  destruct (indexOf_app_in a (")"%char :: Y) "("%char Hin) as [-> Hb].
  rewrite indexOf_app_notin by done.
  unfold slice. rewrite length_app. simpl.
  rewrite !bool_decide_false by lia.
  rewrite Z.min_l by lia. rewrite Z.min_l by lia.
  rewrite drop_app_le by lia.
  replace (Z.to_nat (Z.of_nat (length a) - (indexOf a "("%char + 1)))
    with (length (drop (Z.to_nat (indexOf a "("%char + 1)) a)) by (rewrite length_drop; lia).
  by rewrite take_app_length.
Qed.

(** The parameter list is read only up to the first [)] of the method's
    text. For a text that starts [a ++ ")"], where [a] holds a [(], no
    [)] and no [/], the names do not depend on what follows. So a
    default value with a call, as in [(a = f(1), b)], hides every later
    parameter: only [a] is found. *)
Theorem getParameterNames_first_paren (a b : jsstr) :
  "("%char ∈ a -> ~ (")"%char ∈ a) -> ~ ("/"%char ∈ a) ->
  getParameterNames (a ++ ")"%char :: b) = getParameterNames (a ++ [")"%char]).
Proof.
  intros Hin Hout Hs. unfold getParameterNames.
  rewrite !fnStr_cut by done. rewrite !slice_cut by done. reflexivity.
Qed.

Lemma getParameterNames_first_paren_witness :
  getParameterNames (String.list_ascii_of_string "process(a = g(1"
                       ++ ")"%char :: String.list_ascii_of_string ", b) {}")
    = getParameterNames (String.list_ascii_of_string "process(a = g(1" ++ [")"%char]) /\
  getParameterNames (String.list_ascii_of_string "process(a = g(1" ++ [")"%char])
    = [String.list_ascii_of_string "a"].
Proof.
  split; [|vm_compute; reflexivity].
  apply getParameterNames_first_paren;
    [apply (bool_decide_unpack _ (dec := list_elem_of_dec _ _))
    |apply (bool_decide_unpack _ (dec := not_dec (list_elem_of_dec _ _)))
    |apply (bool_decide_unpack _ (dec := not_dec (list_elem_of_dec _ _)))];
    vm_compute; reflexivity.
Defined.
End ParamExtras.

Section RedisExtras.
Import Redis.
Local Open Scope Z_scope.

(** Lock then unlock by the same client, before the lease ends: on a key
    with no live record and a positive release time, lock.lua answers 1
    and writes the client's record; unlock.lua then answers 1 and leaves
    the store without the key, every other key as it was. After that any
    client can take the key. *)
Theorem lock_unlock_round_trip st now now' k t t' ms ms' :
  get st now k = None -> 0 < ms -> now' < now + ms -> 0 < ms' ->
  lock_script st now k t ms = LuaOk (1, <[k := mkEntry t (now + ms)]> st) /\
  unlock_script (<[k := mkEntry t (now + ms)]> st) now' k t = (1, delete k st) /\
  lock_script (delete k st) now' k t' ms'
    = LuaOk (1, <[k := mkEntry t' (now' + ms')]> st).
Proof.
  intros Hg Hms Hlive Hms'. split; [|split].
  - unfold lock_script. rewrite Hg, bool_decide_false by done.
    by rewrite set_nx_px_absent.
  - unfold unlock_script.
    replace (get (<[k:=mkEntry t (now + ms)]> st) now' k) with (Some t).
    2:{ unfold get, live. rewrite lookup_insert_eq. simpl. by rewrite bool_decide_true by lia. }
    rewrite bool_decide_true by done. unfold del.
    unfold get, live. rewrite lookup_insert_eq. simpl. rewrite bool_decide_true by lia.
    by rewrite delete_insert_eq.
  - unfold lock_script. rewrite get_delete, bool_decide_false by done.
    rewrite set_nx_px_absent by (done || apply get_delete).
    by rewrite insert_delete_eq.
Qed.

Lemma lock_unlock_round_trip_witness :
  let st := (∅ : store) in
  get st 0 "k1" = None /\ 0 < 3000 /\ 1000 < 0 + 3000 /\ 0 < 500 /\
  lock_script st 0 "k1" "A" 3000 = LuaOk (1, <[ "k1" := mkEntry "A" (0 + 3000)]> st) /\
  unlock_script (<[ "k1" := mkEntry "A" (0 + 3000)]> st) 1000 "k1" "A" = (1, delete "k1" st) /\
  lock_script (delete "k1" st) 1000 "k1" "B" 500
    = LuaOk (1, <[ "k1" := mkEntry "B" (1000 + 500)]> st).
Proof.
  intros st. split; [reflexivity|]. split; [lia|]. split; [lia|]. split; [lia|].
  apply (lock_unlock_round_trip st 0 1000 "k1" "A" "B" 3000 500); [reflexivity|lia|lia|lia].
Defined.

(** A lease ends once the clock is past its expiry time. While client
    [t]'s record is live, up to and including the expiry time [now + ms],
    another client [t'] is refused (answer 0, store unchanged) and cannot
    unlock it. After the expiry time, [t]'s unlock answers 0 and leaves
    the store alone, and [t'] takes the key with a fresh record. *)
Theorem lock_lease_expiry st now now' k t t' ms ms' :
  t' <> t -> 0 < ms' ->
  let st1 := <[k := mkEntry t (now + ms)]> st in
  (now' <= now + ms ->
     lock_script st1 now' k t' ms' = LuaOk (0, st1) /\
     unlock_script st1 now' k t' = (0, st1)) /\
  (now + ms < now' ->
     unlock_script st1 now' k t = (0, st1) /\
     lock_script st1 now' k t' ms' = LuaOk (1, <[k := mkEntry t' (now' + ms')]> st)).
Proof.
  intros Hne Hms' st1. split; intros Ht.
  - assert (Hg : get st1 now' k = Some t).
    { unfold st1, get, live. rewrite lookup_insert_eq. simpl. by rewrite bool_decide_true. }
    unfold lock_script, unlock_script, set_nx_px.
    rewrite Hg, !bool_decide_false by (congruence || lia). done.
  - assert (Hg : get st1 now' k = None).
    { unfold st1, get, live. rewrite lookup_insert_eq. simpl. by rewrite bool_decide_false by lia. }
    unfold lock_script, unlock_script, set_nx_px.
    rewrite Hg, !bool_decide_false by (congruence || lia).
    split; [done|]. unfold st1. by rewrite insert_insert_eq.
Qed.

Lemma lock_lease_expiry_witness :
  "B" <> "A" /\ 0 < 500 /\
  lock_script (<[ "k1" := mkEntry "A" (0 + 3000)]> ∅) 3000 "k1" "B" 500
    = LuaOk (0, <[ "k1" := mkEntry "A" (0 + 3000)]> ∅) /\
  lock_script (<[ "k1" := mkEntry "A" (0 + 3000)]> ∅) 3001 "k1" "B" 500
    = LuaOk (1, <[ "k1" := mkEntry "B" (3001 + 500)]> ∅).
Proof.
  split; [done|]. split; [lia|]. split.
  - exact (proj1 (proj1 (lock_lease_expiry ∅ 0 3000 "k1" "A" "B" 3000 500 ltac:(done) ltac:(lia))
                  ltac:(lia))).
  - exact (proj2 (proj2 (lock_lease_expiry ∅ 0 3001 "k1" "A" "B" 3000 500 ltac:(done) ltac:(lia))
                  ltac:(lia))).
Defined.

(** A release time of 0 or less makes lock.lua fail with Redis's
    "invalid expire time" error, unless the client already holds the
    key: then the [get] comparison answers first and the [set] is never
    run, so the answer is 1. *)
Theorem lock_script_nonpositive_ttl st now k t ms :
  ms <= 0 ->
  lock_script st now k t ms =
    if bool_decide (get st now k = Some t) then LuaOk (1, st)
    else LuaError "ERR invalid expire time in 'set' command".
Proof.
  intros Hms. unfold lock_script, set_nx_px.
  case_bool_decide; [done|]. by rewrite bool_decide_true by lia.
Qed.

Lemma lock_script_nonpositive_ttl_witness :
  0 <= 0 /\
  lock_script ∅ 0 "k1" "A" 0 = LuaError "ERR invalid expire time in 'set' command".
Proof.
  split; [lia|]. rewrite (lock_script_nonpositive_ttl ∅ 0 "k1" "A" 0) by lia. reflexivity.
Defined.
End RedisExtras.

(** ** The lock engine, concurrent call chains *)

Section ChainExtras.
Import MurLockService Interleaving ChainInv.





End ChainExtras.
